(** * PureRemove: the orchestration layer of the front end

    A shallow embedding of [App] (the root component of the PureRemove
    front end) together with the types of [src/types/index.ts], and the
    properties of its batch, single-image and clipboard pipelines.

    Conventions of the embedding.
    - A JavaScript string is a [string]; the only characters the code
      inspects are ['/'], ['\'] and ['.'], all of them ASCII, so the byte
      view and the UTF-16 view of a string agree on every split point.
    - An optional property ([resultDataUrl?: string]) is an [option]; JS
      truthiness of such a value is [truthy].
    - React state, the three refs, and the part of the outside world that
      the component talks to (the event bus, the backend commands it
      invokes, the toasts it shows) are the fields of one record [App].
    - An [async] function is cut at each [await]: one definition for the
      code that runs up to the call, one for each way the awaited promise
      can settle. *)

From Stdlib Require Import ZArith Ascii Sorted.
From stdpp Require Import base decidable option list strings.

Local Open Scope Z_scope.
Local Open Scope nat_scope.

(** ** Strings as the code uses them *)

Module Js.

(** Truthiness of a string: only the empty string is falsy. *)
Definition truthy_string (s : string) : bool :=
  match s with EmptyString => false | String _ _ => true end.

(** Truthiness of an optional string ([undefined] is falsy). *)
Definition truthy (o : option string) : bool :=
  match o with None => false | Some s => truthy_string s end.

(** The character class [[\\/]]. *)
Definition is_sep (c : ascii) : bool :=
  (Ascii.eqb c "\" || Ascii.eqb c "/")%char.

(** [s.split(/[\\/]/)]: the segments between separators, never an empty
    array (the empty string splits into one empty segment). *)
Fixpoint split (s : string) : list string :=
  match s with
  | EmptyString => [EmptyString]
  | String c r =>
      if is_sep c then EmptyString :: split r
      else match split r with
           | seg :: segs => String c seg :: segs
           | [] => [String c EmptyString]
           end
  end.

(** [xs.pop()]: the last element, [undefined] on an empty array. *)
Definition pop (xs : list string) : option string := last xs.

(** The character class [[^.]] repeated to the end of input. *)
Fixpoint no_dot (s : string) : bool :=
  match s with
  | EmptyString => true
  | String c r => negb (Ascii.eqb c ".") && no_dot r
  end.

(** Does the pattern [/\.[^.]+$/] match at the head of [s]? *)
Definition ext_at (s : string) : bool :=
  match s with
  | String c r => Ascii.eqb c "." && truthy_string r && no_dot r
  | EmptyString => false
  end.

(** [s.replace(/\.[^.]+$/, "")]: the leftmost position where the pattern
    matches is cut off together with everything after it. *)
Fixpoint replace_ext (s : string) : string :=
  match s with
  | EmptyString => EmptyString
  | String c r => if ext_at s then EmptyString else String c (replace_ext r)
  end.

End Js.

(** ** [src/types/index.ts] *)

Inductive BackgroundColor : Type :=
  | Transparent
  | White
  | Black
  | Color (r g b : Z).

Record ProcessOptions : Type := { background : BackgroundColor }.

Inductive ItemStatus : Type := Pending | Processing | Done | Error.

Global Instance ItemStatus_eq_dec : EqDecision ItemStatus.
Proof. solve_decision. Defined.

Record ImageItem : Type := {
  id : string;
  name : string;
  sourcePath : option string;
  sourceDataUrl : option string;
  status : ItemStatus;
  resultDataUrl : option string;
  error : option string
}.

Inductive AppMode : Type := Idle | Single | Batch.

Global Instance AppMode_eq_dec : EqDecision AppMode.
Proof. solve_decision. Defined.

(** [index] is a JS number; an integer that is negative or past the end
    addresses no position. *)
Record BatchProgressEvent : Type := {
  index : Z;
  total : Z;
  ev_name : string;
  result_data_url : option string;
  ev_error : option string
}.

(** ** Local types of [App] *)

Record SingleState : Type := {
  single_sourceDataUrl : string;
  single_sourcePath : string;
  single_resultDataUrl : string;
  isProcessing : bool
}.

(** A value caught by [catch (e)]: a string, an [Error] with its message,
    or anything else, for which only its serialisations matter
    ([JSON.stringify], which may throw, and [String]). *)
Inductive Thrown : Type :=
  | ThrownString (s : string)
  | ThrownError (message : string)
  | ThrownOther (json : option string) (str : string).

Definition toMsg (e : Thrown) : string :=
  match e with
  | ThrownString s => s
  | ThrownError m => m
  | ThrownOther (Some j) _ => j
  | ThrownOther None s => s
  end.

(** The backend commands the component invokes. *)
Inductive Command : Type :=
  | process_single_image (path : string) (options : ProcessOptions)
  | reprocess_clipboard_image (options : ProcessOptions)
  | process_clipboard_image (options : ProcessOptions)
  | process_batch_images (paths : list string) (options : ProcessOptions).

(** The component's state, its refs, and the outside world it acts on. *)
Record App : Type := {
  (* useState *)
  mode : AppMode;
  single : option SingleState;
  batchItems : list ImageItem;
  globalError : option string;
  bg : BackgroundColor;
  (* useRef *)
  singleSourceRef : option (string * string);
  bgInitRef : bool;
  batchUnlistenRef : option nat;
  (* the "batch-progress" subscriptions alive on the event bus, and the
     handle the next [listen] will return *)
  listeners : list nat;
  nextListener : nat;
  (* commands sent to the backend and messages given to [showError],
     oldest first *)
  invoked : list Command;
  shown : list string;
  (* how many tokens [generateId] has handed out *)
  idsDrawn : nat
}.

(** Field updates, one per field that the component writes. *)
Definition set_mode (v : AppMode) (st : App) : App :=
  {| mode := v; single := single st; batchItems := batchItems st;
     globalError := globalError st; bg := bg st;
     singleSourceRef := singleSourceRef st; bgInitRef := bgInitRef st;
     batchUnlistenRef := batchUnlistenRef st; listeners := listeners st;
     nextListener := nextListener st; invoked := invoked st;
     shown := shown st; idsDrawn := idsDrawn st |}.

Definition set_single (v : option SingleState) (st : App) : App :=
  {| mode := mode st; single := v; batchItems := batchItems st;
     globalError := globalError st; bg := bg st;
     singleSourceRef := singleSourceRef st; bgInitRef := bgInitRef st;
     batchUnlistenRef := batchUnlistenRef st; listeners := listeners st;
     nextListener := nextListener st; invoked := invoked st;
     shown := shown st; idsDrawn := idsDrawn st |}.

Definition set_batchItems (v : list ImageItem) (st : App) : App :=
  {| mode := mode st; single := single st; batchItems := v;
     globalError := globalError st; bg := bg st;
     singleSourceRef := singleSourceRef st; bgInitRef := bgInitRef st;
     batchUnlistenRef := batchUnlistenRef st; listeners := listeners st;
     nextListener := nextListener st; invoked := invoked st;
     shown := shown st; idsDrawn := idsDrawn st |}.

Definition set_globalError (v : option string) (st : App) : App :=
  {| mode := mode st; single := single st; batchItems := batchItems st;
     globalError := v; bg := bg st;
     singleSourceRef := singleSourceRef st; bgInitRef := bgInitRef st;
     batchUnlistenRef := batchUnlistenRef st; listeners := listeners st;
     nextListener := nextListener st; invoked := invoked st;
     shown := shown st; idsDrawn := idsDrawn st |}.

Definition set_bg (v : BackgroundColor) (st : App) : App :=
  {| mode := mode st; single := single st; batchItems := batchItems st;
     globalError := globalError st; bg := v;
     singleSourceRef := singleSourceRef st; bgInitRef := bgInitRef st;
     batchUnlistenRef := batchUnlistenRef st; listeners := listeners st;
     nextListener := nextListener st; invoked := invoked st;
     shown := shown st; idsDrawn := idsDrawn st |}.

Definition set_singleSourceRef (v : option (string * string)) (st : App) : App :=
  {| mode := mode st; single := single st; batchItems := batchItems st;
     globalError := globalError st; bg := bg st;
     singleSourceRef := v; bgInitRef := bgInitRef st;
     batchUnlistenRef := batchUnlistenRef st; listeners := listeners st;
     nextListener := nextListener st; invoked := invoked st;
     shown := shown st; idsDrawn := idsDrawn st |}.

Definition set_bgInitRef (v : bool) (st : App) : App :=
  {| mode := mode st; single := single st; batchItems := batchItems st;
     globalError := globalError st; bg := bg st;
     singleSourceRef := singleSourceRef st; bgInitRef := v;
     batchUnlistenRef := batchUnlistenRef st; listeners := listeners st;
     nextListener := nextListener st; invoked := invoked st;
     shown := shown st; idsDrawn := idsDrawn st |}.

Definition set_batchUnlistenRef (v : option nat) (st : App) : App :=
  {| mode := mode st; single := single st; batchItems := batchItems st;
     globalError := globalError st; bg := bg st;
     singleSourceRef := singleSourceRef st; bgInitRef := bgInitRef st;
     batchUnlistenRef := v; listeners := listeners st;
     nextListener := nextListener st; invoked := invoked st;
     shown := shown st; idsDrawn := idsDrawn st |}.

Definition set_listeners (v : list nat) (st : App) : App :=
  {| mode := mode st; single := single st; batchItems := batchItems st;
     globalError := globalError st; bg := bg st;
     singleSourceRef := singleSourceRef st; bgInitRef := bgInitRef st;
     batchUnlistenRef := batchUnlistenRef st; listeners := v;
     nextListener := nextListener st; invoked := invoked st;
     shown := shown st; idsDrawn := idsDrawn st |}.

Definition set_nextListener (v : nat) (st : App) : App :=
  {| mode := mode st; single := single st; batchItems := batchItems st;
     globalError := globalError st; bg := bg st;
     singleSourceRef := singleSourceRef st; bgInitRef := bgInitRef st;
     batchUnlistenRef := batchUnlistenRef st; listeners := listeners st;
     nextListener := v; invoked := invoked st;
     shown := shown st; idsDrawn := idsDrawn st |}.

Definition set_invoked (v : list Command) (st : App) : App :=
  {| mode := mode st; single := single st; batchItems := batchItems st;
     globalError := globalError st; bg := bg st;
     singleSourceRef := singleSourceRef st; bgInitRef := bgInitRef st;
     batchUnlistenRef := batchUnlistenRef st; listeners := listeners st;
     nextListener := nextListener st; invoked := v;
     shown := shown st; idsDrawn := idsDrawn st |}.

Definition set_shown (v : list string) (st : App) : App :=
  {| mode := mode st; single := single st; batchItems := batchItems st;
     globalError := globalError st; bg := bg st;
     singleSourceRef := singleSourceRef st; bgInitRef := bgInitRef st;
     batchUnlistenRef := batchUnlistenRef st; listeners := listeners st;
     nextListener := nextListener st; invoked := invoked st;
     shown := v; idsDrawn := idsDrawn st |}.

Definition set_idsDrawn (v : nat) (st : App) : App :=
  {| mode := mode st; single := single st; batchItems := batchItems st;
     globalError := globalError st; bg := bg st;
     singleSourceRef := singleSourceRef st; bgInitRef := bgInitRef st;
     batchUnlistenRef := batchUnlistenRef st; listeners := listeners st;
     nextListener := nextListener st; invoked := invoked st;
     shown := shown st; idsDrawn := v |}.

(** The state of a freshly mounted component, before its effects run. *)
Definition initial : App :=
  {| mode := Idle; single := None; batchItems := [];
     globalError := None; bg := Transparent;
     singleSourceRef := None; bgInitRef := true;
     batchUnlistenRef := None; listeners := [];
     nextListener := 0; invoked := [];
     shown := []; idsDrawn := 0 |}.

(** ** The component *)

Section Component.

(** [generateId] comes from [@/lib/utils] and [convertFileSrc] from the
    Tauri API; the component only passes their results along.
    [generateId n] is the token handed out by the [n]-th call. *)
Variable generateId : nat → string.
Variable convertFileSrc : string → string.

Definition getOptions (st : App) : ProcessOptions :=
  {| background := bg st |}.

(** [showError]: the toast is set; a timer clears it 7 s later
    ([globalError_expires]). *)
Definition showError (msg : string) (st : App) : App :=
  set_shown (shown st ++ [msg]) (set_globalError (Some msg) st).

Definition globalError_expires (st : App) : App :=
  set_globalError None st.

Definition invoke (c : Command) (st : App) : App :=
  set_invoked (invoked st ++ [c]) st.

(** *** Event bus: [listen] and the [unlisten] it returns *)

Definition listen (st : App) : nat * App :=
  let h := nextListener st in
  (h, set_nextListener (S h) (set_listeners (listeners st ++ [h]) st)).

Definition unlisten (h : nat) (st : App) : App :=
  set_listeners (filter (λ k, k ≠ h) (listeners st)) st.

(** [batchUnlistenRef.current?.()]: the subscription behind the handle
    the ref holds, if it holds one, is gone. *)
Definition unlisten_current (st : App) : App :=
  set_listeners
    match batchUnlistenRef st with
    | Some h => listeners (unlisten h st)
    | None => listeners st
    end st.

(** *** [processSinglePath] *)

Definition processSinglePath_call (path previewDataUrl : string) (st : App) : App :=
  let st := set_singleSourceRef (Some (path, previewDataUrl)) st in
  let st := set_mode Single st in
  let st := set_single (Some {| single_sourceDataUrl := previewDataUrl;
                                single_sourcePath := path;
                                single_resultDataUrl := "";
                                isProcessing := true |}) st in
  invoke (process_single_image path (getOptions st)) st.

Definition with_result (result : string) (prev : SingleState) : SingleState :=
  {| single_sourceDataUrl := single_sourceDataUrl prev;
     single_sourcePath := single_sourcePath prev;
     single_resultDataUrl := result;
     isProcessing := false |}.

Definition with_processing (b : bool) (prev : SingleState) : SingleState :=
  {| single_sourceDataUrl := single_sourceDataUrl prev;
     single_sourcePath := single_sourcePath prev;
     single_resultDataUrl := single_resultDataUrl prev;
     isProcessing := b |}.

Definition processSinglePath_then (result : string) (st : App) : App :=
  set_single (with_result result <$> single st) st.

Definition processSinglePath_catch (e : Thrown) (st : App) : App :=
  let st := showError ("Erreur de traitement : " +:+ toMsg e) st in
  set_single (with_processing false <$> single st) st.

(** *** [reprocessClipboard] *)

Definition reprocessClipboard_call (st : App) : App :=
  let st := set_single (with_processing true <$> single st) st in
  invoke (reprocess_clipboard_image (getOptions st)) st.

Definition reprocessClipboard_then (result : string) (st : App) : App :=
  set_single (with_result result <$> single st) st.

Definition reprocessClipboard_catch (e : Thrown) (st : App) : App :=
  let st := showError ("Erreur retraitement clipboard : " +:+ toMsg e) st in
  set_single (with_processing false <$> single st) st.

(** *** The effect on [background] *)

Definition backgroundEffect (st : App) : App :=
  if bgInitRef st then set_bgInitRef false st
  else
    match singleSourceRef st with
    | Some (path, dataUrl) =>
        if decide (mode st = Single) then
          if decide (path = "") then reprocessClipboard_call st
          else processSinglePath_call path dataUrl st
        else st
    | None => st
    end.

(** The component mounts: the effect runs once on the first render. *)
Definition mount : App := backgroundEffect initial.

(** [setBackground] from [OutputOptions]: a new object every time, so the
    effect always runs after the render. *)
Definition setBackground (b : BackgroundColor) (st : App) : App :=
  backgroundEffect (set_bg b st).

(** *** [processClipboard] *)

Definition processClipboard_call (st : App) : App :=
  let st := set_mode Single st in
  let st := set_single (Some {| single_sourceDataUrl := "";
                                single_sourcePath := "";
                                single_resultDataUrl := "";
                                isProcessing := true |}) st in
  invoke (process_clipboard_image (getOptions st)) st.

Definition processClipboard_then (result : string) (st : App) : App :=
  let st := set_singleSourceRef (Some ("", result)) st in
  set_single (Some {| single_sourceDataUrl := result;
                      single_sourcePath := "";
                      single_resultDataUrl := result;
                      isProcessing := false |}) st.

Definition processClipboard_catch (e : Thrown) (st : App) : App :=
  let st := showError ("Erreur clipboard : " +:+ toMsg e) st in
  let st := set_mode Idle st in
  set_single None st.

(** *** [processBatch] *)

(** [p.split(/[\\/]/).pop() ?? p] *)
Definition basename (p : string) : string :=
  default p (Js.pop (Js.split p)).

Definition newItem (ident p : string) : ImageItem :=
  {| id := ident; name := basename p; sourcePath := Some p;
     sourceDataUrl := None; status := Pending;
     resultDataUrl := None; error := None |}.

Definition with_status (s : ItemStatus) (item : ImageItem) : ImageItem :=
  {| id := id item; name := name item; sourcePath := sourcePath item;
     sourceDataUrl := sourceDataUrl item; status := s;
     resultDataUrl := resultDataUrl item; error := error item |}.

(** The object the listener builds for the addressed item. *)
Definition completed (ev : BatchProgressEvent) (item : ImageItem) : ImageItem :=
  {| id := id item; name := name item; sourcePath := sourcePath item;
     sourceDataUrl := sourceDataUrl item;
     status := if Js.truthy (ev_error ev) then Error else Done;
     resultDataUrl := result_data_url ev; error := ev_error ev |}.

(** The updater the listener gives to [setBatchItems]. *)
Definition applyProgress (ev : BatchProgressEvent) (prev : list ImageItem)
  : list ImageItem :=
  imap (λ i item, if decide (Z.of_nat i = index ev) then completed ev item
                  else item) prev.

(** The listener registered on "batch-progress". *)
Definition onBatchProgress (ev : BatchProgressEvent) (st : App) : App :=
  set_batchItems (applyProgress ev (batchItems st)) st.

(** The bus delivers an event: the handler of every live subscription
    runs (they all are [onBatchProgress]). *)
Definition emit (ev : BatchProgressEvent) (st : App) : App :=
  foldr (λ _ s, onBatchProgress ev s) st (listeners st).

(** Up to [await listen(...)]: the handle is what the promise will
    resolve to. *)
Definition processBatch_call (paths : list string) (st : App) : nat * App :=
  let st := set_singleSourceRef None st in
  let items := imap (λ i p, newItem (generateId (idsDrawn st + i)) p) paths in
  let st := set_idsDrawn (idsDrawn st + length paths) st in
  let st := set_batchItems items st in
  let st := set_mode Batch st in
  let st := unlisten_current st in
  listen st.

(** From the resolution of [listen] to [await invoke(...)]. *)
Definition processBatch_listened (h : nat) (paths : list string)
    (options : ProcessOptions) (st : App) : App :=
  let st := set_batchUnlistenRef (Some h) st in
  let st := set_batchItems (with_status Processing <$> batchItems st) st in
  invoke (process_batch_images paths options) st.

Definition processBatch_catch (e : Thrown) (st : App) : App :=
  showError ("Erreur batch : " +:+ toMsg e) st.

(** The two synchronous stretches back to back: what a submission does
    when nothing else runs while [listen] is pending. *)
Definition processBatch (paths : list string) (st : App) : App :=
  let '(h, st1) := processBatch_call paths st in
  processBatch_listened h paths (getOptions st) st1.

(** *** [handlePaths], [handleReset] *)

Definition handlePaths (paths : list string) (st : App) : App :=
  match paths with
  | [p] => processSinglePath_call p (convertFileSrc p) st
  | _ => processBatch paths st
  end.

Definition handleReset (st : App) : App :=
  let st := unlisten_current st in
  let st := set_singleSourceRef None st in
  let st := set_mode Idle st in
  let st := set_single None st in
  set_batchItems [] st.

(** *** Saving: the [defaultPath] offered to the dialog, if one opens *)

Definition handleSaveSingle (st : App) : option string :=
  match single st with
  | Some s =>
      if Js.truthy_string (single_resultDataUrl s) then
        let baseName :=
          if Js.truthy_string (single_sourcePath s)
          then default "output"
                 (Js.replace_ext <$> Js.pop (Js.split (single_sourcePath s)))
          else "output" in
        Some (baseName +:+ "_nobg.png")
      else None
  | None => None
  end.

Definition handleSaveOne (item : ImageItem) : option string :=
  if Js.truthy (resultDataUrl item)
  then Some (Js.replace_ext (name item) +:+ "_nobg.png")
  else None.

End Component.

(** ** A batch run as a sequence of states *)

Section Run.

Variable generateId : nat → string.

(** The states the bus leaves behind while it delivers [evs] in order. *)
Fixpoint emits (evs : list BatchProgressEvent) (st : App) : list App :=
  match evs with
  | [] => []
  | ev :: evs' => let st' := emit ev st in st' :: emits evs' st'
  end.

(** The state in which [listen] resolves: after creation and after the
    events delivered while the subscription was being set up ([early]);
    the listener is already live then. *)
Definition subscribed (paths : list string) (early : list BatchProgressEvent)
    (st : App) : App :=
  foldl (λ s ev, emit ev s) (processBatch_call generateId paths st).2 early.

(** The state the continuation of [listen] leaves: bulk change done,
    backend command issued. *)
Definition dispatched (paths : list string) (early : list BatchProgressEvent)
    (st : App) : App :=
  processBatch_listened (processBatch_call generateId paths st).1 paths
    (getOptions st) (subscribed paths early st).

(** A run, each step with the state it leaves: creation, the events
    delivered before the bulk dispatch, the bulk dispatch, the events
    delivered after it. *)
Definition run (paths : list string) (early evs : list BatchProgressEvent)
    (st : App) : list App :=
  (processBatch_call generateId paths st).2
    :: emits early (processBatch_call generateId paths st).2
    ++ dispatched paths early st :: emits evs (dispatched paths early st).

End Run.

(** The order [Pending → Processing → {Done | Error}] on statuses: [b] is
    [a] or lies further along. *)
Definition forward (a b : ItemStatus) : Prop :=
  match a, b with
  | Pending, _ => True
  | Processing, (Processing | Done | Error) => True
  | Done, Done => True
  | Error, Error => True
  | _, _ => False
  end.

Global Instance forward_dec a b : Decision (forward a b).
Proof. destruct a, b; simpl; apply _. Defined.

(** The same order on item lists: same items position by position, each
    status moved forward or not at all. *)
Definition items_forward (l1 l2 : list ImageItem) : Prop :=
  Forall2 (λ a b, id a = id b ∧ forward (status a) (status b)) l1 l2.

(** Every position that no event in [seen] addresses is still
    [Processing]. *)
Definition processing_outside (seen : list Z) (l : list ImageItem) : Prop :=
  ∀ k item, l !! k = Some item → Z.of_nat k ∉ seen → status item = Processing.

(** The data-model invariant tying payload and error to the status. *)
Definition consistent (item : ImageItem) : Prop :=
  (is_Some (resultDataUrl item) ↔ status item = Done) ∧
  (is_Some (error item) ↔ status item = Error).

(** An event that reports exactly one outcome: a payload and no error, or
    a non-empty error and no payload. *)
Definition one_outcome (ev : BatchProgressEvent) : Prop :=
  (is_Some (result_data_url ev) ∧ ev_error ev = None) ∨
  (result_data_url ev = None ∧ Js.truthy (ev_error ev) = true).

(** What an item can be said to hold when events may also arrive before
    the bulk dispatch: a [Done] item has a payload and no error, an
    [Error] item an error and no payload, a [Pending] item neither, and
    no item both. *)
Definition settled (item : ImageItem) : Prop :=
  (status item = Done → is_Some (resultDataUrl item) ∧ error item = None) ∧
  (status item = Error → is_Some (error item) ∧ resultDataUrl item = None) ∧
  (status item = Pending → resultDataUrl item = None ∧ error item = None) ∧
  ¬ (is_Some (resultDataUrl item) ∧ is_Some (error item)).

(** No separator anywhere in [s], as the splitting code tests it. *)
Definition sep_free (s : string) : Prop :=
  ∀ pre c post, s = pre +:+ String c post → Js.is_sep c = false.

(** The path separators and the full stop, named by themselves. *)
Definition is_separator (c : ascii) : Prop := c = "/"%char ∨ c = "\"%char.

Definition is_full_stop (c : ascii) : Prop := c = "."%char.

(** No character of [s] is a [P]. *)
Definition free_of (P : ascii → Prop) (s : string) : Prop :=
  ∀ pre c post, s = pre +:+ String c post → ¬ P c.

(** [s] is the file name of [p]: the text of [p] after its last ['/'] or
    ['\'] (all of [p] when it has none). *)
Definition final_segment (p s : string) : Prop :=
  free_of is_separator s ∧
  (p = s ∨ ∃ pre c, is_separator c ∧ p = pre +:+ String c s).

(** [name] is [stem], a full stop, and a non-empty extension without
    full stop. *)
Definition has_extension (name stem ext : string) : Prop :=
  ext ≠ "" ∧ free_of is_full_stop ext ∧ name = stem +:+ String "." ext.

(** [stem] is [name] with its extension stripped: what stands before the
    extension when [name] has one, all of [name] when it has none. *)
Definition stem_of (name stem : string) : Prop :=
  (∃ ext, has_extension name stem ext) ∨
  (stem = name ∧ ∀ stem' ext, ¬ has_extension name stem' ext).

(** ** The compositor *)

Module Compositor.

Record Pixel : Type := { red : Z; green : Z; blue : Z; alpha : Z }.

Record Buffer (A : Type) : Type :=
  { width : nat; height : nat; data : list A }.
Global Arguments width {A} _.
Global Arguments height {A} _.
Global Arguments data {A} _.

(** Modelled from the spec: the blend of one channel (section 4.1),
    [mask * source + (1 - mask) * background] rounded half up, in 0..255
    fixed point. *)
Definition blend (m src back : Z) : Z :=
  ((2 * (m * src + (255 - m) * back) + 255) / 510)%Z.

(** Modelled from the spec: the background channels of section 4.1. *)
Definition backdrop (spec : BackgroundColor) : Z * Z * Z :=
  match spec with
  | White => (255, 255, 255)
  | Black => (0, 0, 0)
  | Color r g b => (r, g, b)
  | Transparent => (0, 0, 0)
  end%Z.

(** Modelled from the spec: one pixel of section 4.1; [Transparent]
    keeps the colour and takes the mask as alpha, the others blend and
    are opaque. *)
Definition composite_pixel (spec : BackgroundColor) (p : Pixel) (m : Z) : Pixel :=
  match spec with
  | Transparent =>
      {| red := red p; green := green p; blue := blue p; alpha := m |}
  | _ =>
      let '(r, g, b) := backdrop spec in
      {| red := blend m (red p) r; green := blend m (green p) g;
         blue := blend m (blue p) b; alpha := 255 |}
  end.

(** Modelled from the spec: the BackgroundCompositor runs in the backend,
    whose code is not among the sources at hand; this is section 4.1 of
    the specification, with the mask in 0..255 fixed point. [None] is the
    dimension mismatch. *)
Definition composite (pixels : Buffer Pixel) (mask : Buffer Z)
    (spec : BackgroundColor) : option (Buffer Pixel) :=
  if decide (width pixels = width mask ∧ height pixels = height mask ∧
             length (data pixels) = length (data mask))
  then Some {| width := width pixels; height := height pixels;
               data := zip_with (composite_pixel spec) (data pixels) (data mask) |}
  else None.

End Compositor.

(** ** Sample inputs *)

Module Samples.

(** A generator of distinct tokens and an asset-URL converter. *)
Fixpoint sample_id (n : nat) : string :=
  match n with 0 => "#" | S n' => String "i" (sample_id n') end.

Definition sample_src (p : string) : string := "asset://localhost/" +:+ p.

Definition two_paths : list string := ["C:\pics\cat.png"; "/home/me/dog.final.jpg"].

Definition succeeded (i : Z) (payload : string) : BatchProgressEvent :=
  {| index := i; total := 2; ev_name := ""; result_data_url := Some payload;
     ev_error := None |}.

Definition failed (i : Z) (msg : string) : BatchProgressEvent :=
  {| index := i; total := 2; ev_name := ""; result_data_url := None;
     ev_error := Some msg |}.

(** An event that carries neither a payload nor an error. *)
Definition silent (i : Z) : BatchProgressEvent :=
  {| index := i; total := 2; ev_name := ""; result_data_url := None;
     ev_error := None |}.

(** The status of item [k] in the [t]-th state of a run. *)
Definition status_at (t k : nat) (states : list App) : option ItemStatus :=
  s ← states !! t; item ← batchItems s !! k; Some (status item).

(** The payload of item [k] in the [t]-th state of a run. *)
Definition payload_at (t k : nat) (states : list App) : option (option string) :=
  s ← states !! t; item ← batchItems s !! k; Some (resultDataUrl item).

(** A clipboard capture that the user resets while it is in flight and
    that succeeds afterwards. *)
Definition capture_reset_then_resolved : App :=
  processClipboard_then "data:r" (handleReset (processClipboard_call mount)).

(** A clipboard capture that succeeded. *)
Definition captured : App :=
  processClipboard_then "data:r" (processClipboard_call mount).

Definition px (r g b a : Z) : Compositor.Pixel :=
  {| Compositor.red := r; Compositor.green := g;
     Compositor.blue := b; Compositor.alpha := a |}.

Definition two_pixels : Compositor.Buffer Compositor.Pixel :=
  {| Compositor.width := 2; Compositor.height := 1;
     Compositor.data := [px 10 20 30 255; px 200 100 0 255] |}.

Definition two_masks : Compositor.Buffer Z :=
  {| Compositor.width := 2; Compositor.height := 1;
     Compositor.data := [0; 128]%Z |}.

End Samples.

(** ** The rest of the component: sink actions, what is rendered *)

(** The commands handed to the result sink. *)
Inductive SinkCommand : Type :=
  | copy_result_to_clipboard (dataUrl : string)
  | save_result_to_file (dataUrl destPath : string)
  | save_batch_to_folder (items : list (string * string)) (folder : string).

(** [handleCopy]: the command it invokes, if it gets that far. *)
Definition handleCopy (st : App) : option SinkCommand :=
  match single st with
  | Some s =>
      if Js.truthy_string (single_resultDataUrl s)
      then Some (copy_result_to_clipboard (single_resultDataUrl s))
      else None
  | None => None
  end.

(** [handleSaveSingle] past the dialog: [dest] is what [save] resolved to
    ([None] when the user cancels). *)
Definition handleSaveSingle_write (dest : option string) (st : App)
  : option SinkCommand :=
  match handleSaveSingle st, single st with
  | Some _, Some s =>
      match dest with
      | Some d => if Js.truthy_string d
                  then Some (save_result_to_file (single_resultDataUrl s) d)
                  else None
      | None => None
      end
  | _, _ => None
  end.

(** [batchItems.filter((i) => i.status === "done" && i.resultDataUrl)] *)
Definition doneItems (items : list ImageItem) : list ImageItem :=
  filter (λ i, status i = Done ∧ Js.truthy (resultDataUrl i) = true) items.

(** [handleSaveAll]: the command it invokes, if it gets that far; [folder]
    is what the directory dialog resolved to. The [isSavingBatch] flag it
    raises around the call is presentation state and is left out. *)
Definition handleSaveAll (folder : option string) (st : App)
  : option SinkCommand :=
  match doneItems (batchItems st) with
  | [] => None
  | chosen =>
      match folder with
      | Some f =>
          if Js.truthy_string f
          then Some (save_batch_to_folder
                       ((λ i, (name i, default "" (resultDataUrl i))) <$> chosen) f)
          else None
      | None => None
      end
  end.

(** When [invoke("save_batch_to_folder")] or the dialog rejects. *)
Definition handleSaveAll_catch (e : Thrown) (st : App) : App :=
  showError ("Erreur lors de la sauvegarde : " +:+ toMsg e) st.

(** What the main area renders. *)
Inductive View : Type :=
  | ShowDropZone (disabled : bool)
  | ShowSplitPreview (originalSrc resultSrc : string) (processing : bool)
  | ShowBatchList (items : list ImageItem)
  | ShowNothing.

(** The three conditional blocks of [<main>]; [modelError] is the state
    set by the start-up check. *)
Definition view (modelError : option string) (st : App) : View :=
  match mode st with
  | Idle => ShowDropZone (Js.truthy modelError)
  | Single =>
      match single st with
      | Some s =>
          ShowSplitPreview (single_sourceDataUrl s)
            (if Js.truthy_string (single_resultDataUrl s)
             then single_resultDataUrl s else single_sourceDataUrl s)
            (isProcessing s)
      | None => ShowNothing
      end
  | Batch => ShowBatchList (batchItems st)
  end.

(** ** [SplitPreview]'s buttons *)

(** The copy and save buttons exist while the preview is rendered and
    carry [disabled={isProcessing}]. *)
Definition buttons_enabled (st : App) : bool :=
  match mode st, single st with
  | Single, Some s => negb (isProcessing s)
  | _, _ => false
  end.

(** A click on "Copier": the command invoked, if any. *)
Definition clickCopy (st : App) : option SinkCommand :=
  if buttons_enabled st then handleCopy st else None.

(** A click on "Sauvegarder": the [defaultPath] offered, if the dialog
    opens. *)
Definition clickSave (st : App) : option string :=
  if buttons_enabled st then handleSaveSingle st else None.

(** ** [DropZone] *)

Module DropZone.

(** [ACCEPTED_EXTENSIONS] of [src/types/index.ts]. *)
Definition ACCEPTED_EXTENSIONS : list string :=
  ["png"; "jpg"; "jpeg"; "webp"; "svg";
   "bmp"; "gif"; "tif"; "tiff"; "ico";
   "tga"; "pnm"; "pbm"; "pgm"; "ppm";
   "hdr"; "ff"; "qoi"].

(** [s.split(sep)] for a one-character separator, by a test on
    characters. *)
Fixpoint split_by (sep : ascii → bool) (s : string) : list string :=
  match s with
  | EmptyString => [EmptyString]
  | String c r =>
      if sep c then EmptyString :: split_by sep r
      else match split_by sep r with
           | seg :: segs => String c seg :: segs
           | [] => [String c EmptyString]
           end
  end.

Definition is_dot (c : ascii) : bool := Ascii.eqb c ".".

(** Every character of [s] passes [P]. *)
Fixpoint all_chars (P : ascii → bool) (s : string) : bool :=
  match s with
  | EmptyString => true
  | String c r => P c && all_chars P r
  end.

(** [toLowerCase] on one character: the letters A to Z. A character
    outside ASCII is left alone; of those JavaScript lowers to ASCII there
    is only the Kelvin sign, to k, a letter no accepted extension has, so
    the test below decides as the code does. *)
Definition lower_char (c : ascii) : ascii :=
  let n := N_of_ascii c in
  if (65 <=? n)%N && (n <=? 90)%N then ascii_of_N (n + 32) else c.

Fixpoint toLowerCase (s : string) : string :=
  match s with
  | EmptyString => EmptyString
  | String c r => String (lower_char c) (toLowerCase r)
  end.

(** [p.split(".").pop()?.toLowerCase() ?? ""] *)
Definition extension (p : string) : string :=
  default "" (toLowerCase <$> Js.pop (split_by is_dot p)).

Definition isImagePath (p : string) : bool :=
  bool_decide (extension p ∈ ACCEPTED_EXTENSIONS).

(** What the file dialog resolved to. *)
Inductive Selected : Type :=
  | NoSelection
  | OneFile (path : string)
  | ManyFiles (paths : list string).

Section Handlers.

Variable generateId : nat → string.
Variable convertFileSrc : string → string.

(** The "drop" branch of the drag-and-drop listener; [paths] is the
    payload's optional [paths]. *)
Definition onDrop (disabled : bool) (paths : option (list string)) (st : App) : App :=
  if disabled then st
  else
    let images := filter (λ p, isImagePath p = true) (default [] paths) in
    if bool_decide (0 < length images)
    then handlePaths generateId convertFileSrc images st
    else st.

(** [handleBrowse] once the dialog has resolved. *)
Definition handleBrowse (disabled : bool) (selected : Selected) (st : App) : App :=
  if disabled then st
  else
    match selected with
    | NoSelection => st
    | OneFile "" => st
    | OneFile p =>
        let images := filter (λ p, isImagePath p = true) [p] in
        if bool_decide (0 < length images)
        then handlePaths generateId convertFileSrc images st
        else st
    | ManyFiles paths =>
        let images := filter (λ p, isImagePath p = true) paths in
        if bool_decide (0 < length images)
        then handlePaths generateId convertFileSrc images st
        else st
    end.

End Handlers.

End DropZone.

(** ** [BatchList] *)

Module BatchList.

Definition done (items : list ImageItem) : nat :=
  length (filter (λ i, status i = Done) items).

Definition total (items : list ImageItem) : nat := length items.

(** The condition under which the save-all button is rendered. *)
Definition allDone (items : list ImageItem) : bool :=
  bool_decide (done items = total items) && bool_decide (0 < total items).

End BatchList.

(** ** [OutputOptions] *)

Module OutputOptions.

Inductive Preset : Type :=
  | PresetTransparent
  | PresetWhite
  | PresetBlack
  | PresetCustom.

Definition currentPreset (value : BackgroundColor) : Preset :=
  match value with
  | Transparent => PresetTransparent
  | White => PresetWhite
  | Black => PresetBlack
  | Color _ _ _ => PresetCustom
  end.

Section Picker.

(** [hexToRgb] comes from [@/lib/utils]. *)
Variable hexToRgb : string → Z * Z * Z.

(** [selectPreset]: the value given to [onChange]; [customHex] is the
    picker's current colour. *)
Definition selectPreset (preset : Preset) (customHex : string) : BackgroundColor :=
  match preset with
  | PresetTransparent => Transparent
  | PresetWhite => White
  | PresetBlack => Black
  | PresetCustom => let '(r, g, b) := hexToRgb customHex in Color r g b
  end.

(** [onCustomColorChange]: the new [customHex] and the value given to
    [onChange]. *)
Definition onCustomColorChange (hex : string) : string * BackgroundColor :=
  (hex, let '(r, g, b) := hexToRgb hex in Color r g b).

End Picker.

End OutputOptions.

(** ** Histories *)

(** Everything that can happen to the component, one constructor per
    synchronous stretch of code: a call, or the settling of a promise. *)
Inductive Action : Type :=
  | DoPaths (paths : list string)
  | DoSingleResolved (result : string)
  | DoSingleRejected (e : Thrown)
  | DoPaste
  | DoPasteResolved (result : string)
  | DoPasteRejected (e : Thrown)
  | DoBackground (b : BackgroundColor)
  | DoReprocessResolved (result : string)
  | DoReprocessRejected (e : Thrown)
  | DoBatchCall (paths : list string)
  | DoBatchListened (h : nat) (paths : list string) (options : ProcessOptions)
  | DoBatchRejected (e : Thrown)
  | DoProgress (ev : BatchProgressEvent)
  | DoReset
  | DoToastExpired.

(** Submissions run both stretches of [processBatch] back to back. *)
Definition unsplit (a : Action) : bool :=
  match a with
  | DoBatchCall _ | DoBatchListened _ _ _ => false
  | _ => true
  end.

Section Histories.

Variable generateId : nat → string.
Variable convertFileSrc : string → string.

Definition act (a : Action) (st : App) : App :=
  match a with
  | DoPaths paths => handlePaths generateId convertFileSrc paths st
  | DoSingleResolved r => processSinglePath_then r st
  | DoSingleRejected e => processSinglePath_catch e st
  | DoPaste => processClipboard_call st
  | DoPasteResolved r => processClipboard_then r st
  | DoPasteRejected e => processClipboard_catch e st
  | DoBackground b => setBackground b st
  | DoReprocessResolved r => reprocessClipboard_then r st
  | DoReprocessRejected e => reprocessClipboard_catch e st
  | DoBatchCall paths => (processBatch_call generateId paths st).2
  | DoBatchListened h paths options => processBatch_listened h paths options st
  | DoBatchRejected e => processBatch_catch e st
  | DoProgress ev => emit ev st
  | DoReset => handleReset st
  | DoToastExpired => globalError_expires st
  end.

(** The state after a history, from the mounted component. *)
Definition after (actions : list Action) : App :=
  foldl (λ st a, act a st) mount actions.

End Histories.

(** An item as [processBatch] makes them: built from a path. *)
Definition from_path (item : ImageItem) : Prop :=
  ∃ p, sourcePath item = Some p ∧ name item = basename p ∧
       sourceDataUrl item = None.

Definition terminal (s : ItemStatus) : Prop := s = Done ∨ s = Error.

(** * Properties *)

(** ** Paths and file names *)

Section Strings.

Lemma app_String a x y : String a x +:+ y = String a (x +:+ y).
Proof. reflexivity. Qed.

Lemma app_empty_l x : "" +:+ x = x.
Proof. reflexivity. Qed.

Lemma split_not_nil s : Js.split s ≠ [].
Proof.
  destruct s as [|c r]; simpl; [done|].
  destruct (Js.is_sep c); [done|]. by destruct (Js.split r).
Qed.

(** Segments of a string cut at a separator: those before, then those
    after. *)
Lemma split_app_sep pre c post :
  Js.is_sep c = true →
  Js.split (pre +:+ String c post) = Js.split pre ++ Js.split post.
Proof.
  intros Hc. induction pre as [|a pre IH].
  - rewrite app_empty_l. simpl. by rewrite Hc.
  - rewrite app_String. simpl. rewrite IH.
    destruct (Js.is_sep a); [done|].
    pose proof (split_not_nil pre) as Hne.
    by destruct (Js.split pre).
Qed.

Lemma sep_free_empty : sep_free "".
Proof. intros [|a pre] c post; rewrite ?app_String; discriminate. Qed.

Lemma sep_free_String a s :
  Js.is_sep a = false → sep_free s → sep_free (String a s).
Proof.
  intros Ha Hs [|b pre] c post.
  - rewrite app_empty_l. by intros [= <- _].
  - rewrite app_String. intros [= _ ->]. by eapply Hs.
Qed.

Lemma sep_free_tail a s : sep_free (String a s) → sep_free s.
Proof. intros H pre c post ->. by apply (H (String a pre) c post). Qed.

Lemma split_sep_free s : sep_free s → Js.split s = [s].
Proof.
  induction s as [|a s IH]; intros Hs; [done|]. simpl.
  rewrite (Hs "" a s eq_refl), IH; [done|]. by eapply sep_free_tail.
Qed.

(** A path has no separator, or it has a last one. *)
Lemma last_separator p :
  sep_free p ∨
  ∃ pre c s, Js.is_sep c = true ∧ sep_free s ∧ p = pre +:+ String c s.
Proof.
  induction p as [|a p IH]; [left; apply sep_free_empty|].
  destruct IH as [Hfree|(pre & c & s & Hc & Hs & ->)].
  - destruct (Js.is_sep a) eqn:Ha.
    + right. by exists "", a, p.
    + left. by apply sep_free_String.
  - right. by exists (String a pre), c, s.
Qed.

Lemma is_sep_spec c : Js.is_sep c = true ↔ is_separator c.
Proof.
  unfold Js.is_sep, is_separator. rewrite orb_true_iff, !Ascii.eqb_eq. tauto.
Qed.

Lemma sep_free_spec s : sep_free s ↔ free_of is_separator s.
Proof.
  unfold sep_free, free_of. split; intros H pre c post Hs.
  - rewrite <-is_sep_spec. by rewrite (H pre c post Hs).
  - apply not_true_is_false. rewrite is_sep_spec. by eapply H.
Qed.

(** The name the code takes from a path is the path's file name, and
    nothing else is. *)
Lemma basename_final_segment p : final_segment p (basename p).
Proof.
  unfold final_segment, basename, Js.pop. rewrite <-sep_free_spec.
  destruct (last_separator p) as [Hfree|(pre & c & s & Hc & Hs & ->)].
  - rewrite split_sep_free by done. simpl. split; [done|by left].
  - rewrite split_app_sep, last_app, (split_sep_free s) by done. simpl.
    split; [done|]. right. exists pre, c. by rewrite <-is_sep_spec.
Qed.

Lemma final_segment_basename p s : final_segment p s → basename p = s.
Proof.
  unfold final_segment, basename, Js.pop. rewrite <-sep_free_spec.
  intros [Hs [-> | (pre & c & Hc & ->)]].
  - by rewrite split_sep_free.
  - apply is_sep_spec in Hc.
    by rewrite split_app_sep, last_app, (split_sep_free s).
Qed.

Lemma no_dot_app_dot x y : Js.no_dot (x +:+ String "." y) = false.
Proof.
  induction x as [|a x IH]; [done|].
  rewrite app_String. simpl. rewrite IH. apply andb_false_r.
Qed.

(** The pattern removes a non-empty, dot-free extension and its dot. *)
Lemma replace_ext_stem stem ext :
  Js.truthy_string ext = true → Js.no_dot ext = true →
  Js.replace_ext (stem +:+ String "." ext) = stem.
Proof.
  intros Hne Hnd. induction stem as [|a stem IH].
  - rewrite app_empty_l. simpl. by rewrite Hne, Hnd.
  - rewrite app_String. simpl. rewrite no_dot_app_dot, andb_false_r.
    by rewrite IH.
Qed.

(** It removes nothing else: either the name is left alone, or what is
    cut is such an extension. *)
Lemma replace_ext_cases s :
  Js.replace_ext s = s ∨
  ∃ ext, Js.truthy_string ext = true ∧ Js.no_dot ext = true ∧
         s = Js.replace_ext s +:+ String "." ext.
Proof.
  induction s as [|a s IH]; [by left|].
  cbn [Js.replace_ext]. destruct (Js.ext_at (String a s)) eqn:Hat.
  - right. simpl in Hat.
    apply andb_prop in Hat as [[Ha Hne]%andb_prop Hnd].
    apply Ascii.eqb_eq in Ha as ->. by exists s.
  - destruct IH as [->|(ext & Hne & Hnd & Hs)]; [by left|].
    right. exists ext. split_and!; [done..|].
    rewrite app_String. by f_equal.
Qed.

End Strings.

(** ** The batch pipeline *)

Section Batch.

Variable generateId : nat → string.

Lemma Forall2_imap_r {A B} (P : A → B → Prop) (f : nat → A → B) (l : list A) :
  (∀ i x, l !! i = Some x → P x (f i x)) → Forall2 P l (imap f l).
Proof.
  intros HP. apply Forall2_same_length_lookup_2; [by rewrite length_imap|].
  intros i x y Hx Hy. rewrite list_lookup_imap, Hx in Hy.
  simplify_eq/=. by apply HP.
Qed.

Lemma batchItems_created paths st :
  batchItems (processBatch_call generateId paths st).2 =
  imap (λ i p, newItem (generateId (idsDrawn st + i)) p) paths.
Proof. reflexivity. Qed.

Lemma batchItems_dispatched paths st :
  batchItems (processBatch generateId paths st) =
  with_status Processing <$> batchItems (processBatch_call generateId paths st).2.
Proof. reflexivity. Qed.

(** *** Completion events *)

Lemma truthy_spec (o : option string) :
  Js.truthy o = true ↔ ∃ e, o = Some e ∧ e ≠ "".
Proof.
  destruct o as [[|c s]|]; simpl; split; try done.
  - intros (e & [= <-] & He). done.
  - intros _. by eexists.
  - intros (e & [=] & _).
Qed.

Lemma lookup_applyProgress ev prev i :
  applyProgress ev prev !! i =
  (λ item, if decide (Z.of_nat i = index ev) then completed ev item else item)
    <$> prev !! i.
Proof. unfold applyProgress. by rewrite list_lookup_imap. Qed.

Lemma length_applyProgress ev prev :
  length (applyProgress ev prev) = length prev.
Proof. apply length_imap. Qed.

Lemma applyProgress_idemp ev prev :
  applyProgress ev (applyProgress ev prev) = applyProgress ev prev.
Proof.
  apply list_eq. intros i. rewrite !lookup_applyProgress.
  destruct (prev !! i) as [item|]; [|done]. simpl.
  by destruct (decide _).
Qed.

(** Events for different positions commute: the outcome does not depend
    on the order in which they arrive. *)
Lemma applyProgress_comm ev ev' prev :
  index ev ≠ index ev' →
  applyProgress ev (applyProgress ev' prev) =
  applyProgress ev' (applyProgress ev prev).
Proof.
  intros Hne. apply list_eq. intros i. rewrite !lookup_applyProgress.
  destruct (prev !! i) as [item|]; [|done]. simpl.
  destruct (decide (Z.of_nat i = index ev)), (decide (Z.of_nat i = index ev'));
    try done. congruence.
Qed.

(** *** Delivery *)

Lemma set_batchItems_same st : set_batchItems (batchItems st) st = st.
Proof. by destruct st. Qed.

Lemma onBatchProgress_idemp ev st :
  onBatchProgress ev (onBatchProgress ev st) = onBatchProgress ev st.
Proof.
  unfold onBatchProgress. cbn [batchItems set_batchItems].
  rewrite applyProgress_idemp. by destruct st.
Qed.

Lemma deliver_eq ev st (ls : list nat) :
  foldr (λ _ s, onBatchProgress ev s) st ls =
  match ls with [] => st | _ :: _ => onBatchProgress ev st end.
Proof.
  induction ls as [|h ls IH]; [done|]. cbn [foldr]. rewrite IH.
  destruct ls; [done|]. apply onBatchProgress_idemp.
Qed.

Lemma emit_eq ev st :
  emit ev st = match listeners st with [] => st | _ :: _ => onBatchProgress ev st end.
Proof. apply deliver_eq. Qed.

Lemma listeners_emit ev st : listeners (emit ev st) = listeners st.
Proof. rewrite emit_eq. by destruct (listeners st) eqn:Hls. Qed.

Lemma foldl_emit_items (P : list ImageItem → Prop) :
  (∀ ev l, P l → P (applyProgress ev l)) →
  ∀ evs s, P (batchItems s) → P (batchItems (foldl (λ s ev, emit ev s) s evs)).
Proof.
  intros HP evs. induction evs as [|ev evs IH]; intros s Hs; [done|].
  cbn [foldl]. apply IH. rewrite emit_eq.
  destruct (listeners s); [done|]. by apply HP.
Qed.

Lemma foldl_emit_invoked evs : ∀ s,
  invoked (foldl (λ s ev, emit ev s) s evs) = invoked s.
Proof.
  induction evs as [|ev evs IH]; intros s; [done|].
  cbn [foldl]. rewrite IH, emit_eq. by destruct (listeners s).
Qed.

Lemma foldl_emit_listeners evs : ∀ s,
  listeners (foldl (λ s ev, emit ev s) s evs) = listeners s.
Proof.
  induction evs as [|ev evs IH]; intros s; [done|].
  cbn [foldl]. by rewrite IH, listeners_emit.
Qed.

Lemma batchItems_listened h paths options s :
  batchItems (processBatch_listened h paths options s) =
  with_status Processing <$> batchItems s.
Proof. reflexivity. Qed.

Lemma invoked_listened h paths options s :
  invoked (processBatch_listened h paths options s) =
  invoked s ++ [process_batch_images paths options].
Proof. reflexivity. Qed.

Lemma applyProgress_keeps_paths ev (paths : list string) (l : list ImageItem) :
  Forall2 (λ p item, sourcePath item = Some p ∧ name item = basename p) paths l →
  Forall2 (λ p item, sourcePath item = Some p ∧ name item = basename p) paths
          (applyProgress ev l).
Proof.
  intros Hl. apply Forall2_same_length_lookup_2.
  { rewrite length_applyProgress. by eapply Forall2_length. }
  intros i p item Hp. rewrite lookup_applyProgress.
  destruct (l !! i) as [item0|] eqn:Hi; [|done]. simpl. intros [= <-].
  pose proof (Forall2_lookup_lr _ _ _ _ _ _ Hl Hp Hi) as [? ?].
  by destruct (decide _).
Qed.

(** C1 (amended). A submission of [paths] builds one item per path, in
    order, each [Pending], named by the file name of its path (the text
    after the last ['/'] or ['\']), with no payload and no error, and no
    backend command has been issued then. When the subscription is
    established, whatever events were delivered meanwhile, one update
    turns every item to [Processing], each still with its path and name,
    and only then is the command that starts the backend run issued: no
    completion event that this command causes can precede the bulk
    change. *)
Theorem processBatch_builds_then_dispatches (paths : list string) (st : App) :
  Forall2 (λ p item, sourcePath item = Some p ∧ final_segment p (name item) ∧
                     status item = Pending ∧
                     resultDataUrl item = None ∧ error item = None)
          paths (batchItems (processBatch_call generateId paths st).2) ∧
  invoked (processBatch_call generateId paths st).2 = invoked st ∧
  (∀ early,
     batchItems (dispatched generateId paths early st) =
       with_status Processing <$> batchItems (subscribed generateId paths early st) ∧
     Forall2 (λ p item, sourcePath item = Some p ∧ final_segment p (name item) ∧
                        status item = Processing)
             paths (batchItems (dispatched generateId paths early st)) ∧
     invoked (subscribed generateId paths early st) = invoked st ∧
     invoked (dispatched generateId paths early st) =
       invoked st ++ [process_batch_images paths (getOptions st)]) ∧
  dispatched generateId paths [] st = processBatch generateId paths st.
Proof.
  split_and!.
  - rewrite batchItems_created. apply Forall2_imap_r. intros i p _. simpl.
    split_and!; try done. apply basename_final_segment.
  - reflexivity.
  - intros early. unfold dispatched.
    rewrite batchItems_listened, invoked_listened.
    assert (invoked (subscribed generateId paths early st) = invoked st) as Hinv.
    { unfold subscribed. by rewrite foldl_emit_invoked. }
    split_and!; [done| |done|by rewrite Hinv].
    assert (Forall2 (λ p item, sourcePath item = Some p ∧ name item = basename p)
              paths (batchItems (subscribed generateId paths early st))) as Hitems.
    { unfold subscribed.
      apply (foldl_emit_items
               (Forall2 (λ p item, sourcePath item = Some p ∧
                                   name item = basename p) paths)).
      - intros ev l. apply applyProgress_keeps_paths.
      - rewrite batchItems_created. by apply Forall2_imap_r. }
    apply Forall2_fmap_r. eapply Forall2_impl; [exact Hitems|].
    intros p item [Hp Hn]. simpl. split_and!; [done| |done].
    rewrite Hn. apply basename_final_segment.
  - reflexivity.
Qed.

(** C2 (amended). Applying an event leaves the list's length alone and
    touches only the position its [index] names: that item keeps its
    identity, takes the event's payload and error, and becomes [Error]
    when the event's error is present and non-empty, [Done] otherwise
    (also when the error is the empty string); every other position is
    unchanged; and events for different positions can be applied in
    either order. *)
Theorem applyProgress_only_index (ev : BatchProgressEvent) (prev : list ImageItem) :
  length (applyProgress ev prev) = length prev ∧
  (∀ i item, prev !! i = Some item → Z.of_nat i = index ev →
     ∃ item', applyProgress ev prev !! i = Some item' ∧
       ((status item' = Error ∧ ∃ e, ev_error ev = Some e ∧ e ≠ "") ∨
        (status item' = Done ∧ (ev_error ev = None ∨ ev_error ev = Some ""))) ∧
       resultDataUrl item' = result_data_url ev ∧
       error item' = ev_error ev ∧
       id item' = id item ∧ name item' = name item ∧
       sourcePath item' = sourcePath item ∧
       sourceDataUrl item' = sourceDataUrl item) ∧
  (∀ i, Z.of_nat i ≠ index ev → applyProgress ev prev !! i = prev !! i) ∧
  (∀ ev', index ev ≠ index ev' →
     applyProgress ev (applyProgress ev' prev) =
     applyProgress ev' (applyProgress ev prev)).
Proof.
  split_and!.
  - apply length_applyProgress.
  - intros i item Hi Hidx. exists (completed ev item).
    rewrite lookup_applyProgress, Hi. simpl.
    rewrite decide_True by done. split_and!; try done.
    destruct (Js.truthy (ev_error ev)) eqn:Ht.
    + left. split; [done|]. by apply truthy_spec.
    + right. split; [done|]. by destruct (ev_error ev) as [[|??]|]; auto.
  - intros i Hne. rewrite lookup_applyProgress.
    destruct (prev !! i); [|done]. simpl. by rewrite decide_False.
  - intros ev'. apply applyProgress_comm.
Qed.

End Batch.

(** ** Runs *)

Section Runs.

Variable generateId : nat → string.

Lemma batchItems_deliver ev st (ls : list nat) :
  batchItems (foldr (λ _ s, onBatchProgress ev s) st ls) =
  match ls with
  | [] => batchItems st
  | _ :: _ => applyProgress ev (batchItems st)
  end.
Proof.
  induction ls as [|h ls IH]; [done|]. simpl. rewrite IH.
  destruct ls; [done|]. apply applyProgress_idemp.
Qed.

Lemma batchItems_emit ev st :
  batchItems (emit ev st) = batchItems st ∨
  batchItems (emit ev st) = applyProgress ev (batchItems st).
Proof.
  unfold emit. rewrite batchItems_deliver. destruct (listeners st); auto.
Qed.

(** *** Statuses only move forward *)

Lemma forward_refl a : forward a a.
Proof. by destruct a. Qed.

Lemma forward_trans a b c : forward a b → forward b c → forward a c.
Proof. by destruct a, b, c. Qed.

Lemma forward_terminal a b :
  a = Done ∨ a = Error → forward a b → b = a.
Proof. by intros [-> | ->]; destruct b. Qed.

Lemma items_forward_refl l : items_forward l l.
Proof.
  apply Forall_Forall2_diag, Forall_forall. intros x _.
  split; [done|apply forward_refl].
Qed.

Lemma items_forward_trans l1 l2 l3 :
  items_forward l1 l2 → items_forward l2 l3 → items_forward l1 l3.
Proof.
  apply Forall2_trans. intros x y z [Hxy Fxy] [Hyz Fyz].
  split; [congruence|by eapply forward_trans].
Qed.

Lemma processing_outside_mono seen z l :
  processing_outside seen l → processing_outside (z :: seen) l.
Proof.
  intros H k item Hk Hnot. apply (H k item Hk).
  intros Hin. apply Hnot. by right.
Qed.

Lemma applyProgress_forward seen ev l :
  processing_outside seen l → index ev ∉ seen →
  items_forward l (applyProgress ev l) ∧
  processing_outside (index ev :: seen) (applyProgress ev l).
Proof.
  intros Hout Hfresh. split.
  - apply Forall2_imap_r. intros i item Hi.
    destruct (decide (Z.of_nat i = index ev)) as [Heq|Hne].
    + split; [done|]. rewrite (Hout i item Hi) by (by rewrite Heq).
      simpl. by destruct (Js.truthy _).
    + split; [done|apply forward_refl].
  - intros k item Hk Hnot. rewrite lookup_applyProgress in Hk.
    destruct (l !! k) as [item0|] eqn:Hl; [|done]. simpl in Hk.
    rewrite decide_False in Hk.
    + simplify_eq. apply (Hout k item Hl). intros Hin. apply Hnot. by right.
    + intros Heq. apply Hnot. rewrite Heq. by left.
Qed.

Lemma emit_forward seen ev st :
  processing_outside seen (batchItems st) → index ev ∉ seen →
  items_forward (batchItems st) (batchItems (emit ev st)) ∧
  processing_outside (index ev :: seen) (batchItems (emit ev st)).
Proof.
  intros Hout Hfresh. destruct (batchItems_emit ev st) as [-> | ->].
  - split; [apply items_forward_refl|by apply processing_outside_mono].
  - by apply applyProgress_forward.
Qed.

Lemma emits_chain evs : ∀ seen st,
  processing_outside seen (batchItems st) →
  NoDup (index <$> evs) →
  (∀ z, z ∈ index <$> evs → z ∉ seen) →
  Sorted items_forward (batchItems st :: (batchItems <$> emits evs st)).
Proof.
  induction evs as [|ev evs IH]; intros seen st Hout Hnd Hfresh.
  - repeat constructor.
  - rewrite fmap_cons in Hnd. apply NoDup_cons in Hnd as [Hev Hnd].
    destruct (emit_forward seen ev st Hout) as [Hfw Hout'].
    { apply Hfresh. rewrite fmap_cons. by left. }
    cbn [emits fmap list_fmap]. constructor; [|by constructor].
    apply (IH (index ev :: seen)); [done..|].
    intros z Hz [->|Hin]%elem_of_cons; [done|].
    apply (Hfresh z); [|done]. rewrite fmap_cons. by right.
Qed.

Lemma created_forward_dispatched paths st :
  items_forward (batchItems (processBatch_call generateId paths st).2)
                (batchItems (processBatch generateId paths st)).
Proof.
  rewrite batchItems_dispatched, batchItems_created.
  apply Forall2_fmap_r, Forall_Forall2_diag, Forall_lookup_2.
  intros i item [p [_ ->]]%list_lookup_imap_Some. done.
Qed.

Lemma dispatched_processing paths st :
  processing_outside [] (batchItems (processBatch generateId paths st)).
Proof.
  rewrite batchItems_dispatched. intros k item Hk _.
  apply list_lookup_fmap_Some in Hk as (item0 & -> & _). done.
Qed.

Lemma dispatched_nil paths st :
  dispatched generateId paths [] st = processBatch generateId paths st.
Proof. reflexivity. Qed.

Lemma length_emits evs : ∀ s, length (emits evs s) = length evs.
Proof.
  induction evs as [|ev evs IH]; intros s; [done|]. cbn [emits length].
  by rewrite IH.
Qed.

Lemma run_after_dispatch paths early evs st :
  drop (S (length early)) (run generateId paths early evs st) =
  dispatched generateId paths early st
    :: emits evs (dispatched generateId paths early st).
Proof.
  unfold run. cbn [drop].
  rewrite <-(length_emits early (processBatch_call generateId paths st).2).
  apply drop_app_length.
Qed.

Lemma listened_processing h paths options s :
  processing_outside [] (batchItems (processBatch_listened h paths options s)).
Proof.
  rewrite batchItems_listened. intros k item Hk _.
  apply list_lookup_fmap_Some in Hk as (item0 & -> & _). done.
Qed.

(** C3 (amended). In a run whose completion events delivered after the
    bulk dispatch carry pairwise different indices: when no event is
    delivered before the bulk dispatch, the item lists at any two moments
    (after creation, after the bulk dispatch, after each event), the
    earlier before the later, hold the same items position by position
    with every status moved forward along
    [Pending → Processing → {Done | Error}] or left alone; and whatever
    was delivered before the bulk dispatch, the same holds between any
    two moments from the bulk dispatch on. A [Done] or [Error] status
    has nothing after it but itself. *)
Theorem run_status_forward (paths : list string)
    (early evs : list BatchProgressEvent) (st : App) :
  NoDup (index <$> evs) →
  StronglySorted items_forward (batchItems <$> run generateId paths [] evs st) ∧
  StronglySorted items_forward
    (batchItems <$> drop (S (length early)) (run generateId paths early evs st)) ∧
  (∀ a b, a = Done ∨ a = Error → forward a b → b = a).
Proof.
  intros Hnd. split_and!; [| |apply forward_terminal].
  - apply Sorted_StronglySorted.
    { intros x y z. apply items_forward_trans. }
    unfold run. cbn [emits app]. rewrite dispatched_nil.
    cbn [fmap list_fmap]. constructor.
    + apply (emits_chain evs []); [apply dispatched_processing|done|].
      intros z _ Hin. by apply not_elem_of_nil in Hin.
    + constructor. apply created_forward_dispatched.
  - apply Sorted_StronglySorted.
    { intros x y z. apply items_forward_trans. }
    rewrite run_after_dispatch. cbn [fmap list_fmap].
    apply (emits_chain evs []); [apply listened_processing|done|].
    intros z _ Hin. by apply not_elem_of_nil in Hin.
Qed.

(** *** Payload, error and status agree *)

Lemma applyProgress_consistent ev l :
  one_outcome ev → Forall consistent l → Forall consistent (applyProgress ev l).
Proof.
  intros Hev Hl. apply Forall_lookup_2. intros i item Hi.
  rewrite lookup_applyProgress in Hi.
  destruct (l !! i) as [item0|] eqn:Hl0; [|done]. simpl in Hi.
  destruct (decide _); simplify_eq; [|by eapply Forall_lookup_1].
  unfold consistent, completed. simpl.
  destruct Hev as [[[r Hr] He] | [Hr He]]; rewrite ?Hr, ?He in *; simpl.
  - repeat split; intros H; try done; by destruct H.
  - destruct (ev_error ev) as [msg|]; [|done].
    repeat split; intros H; try done; by destruct H.
Qed.

Lemma emits_consistent evs : ∀ st,
  Forall one_outcome evs → Forall consistent (batchItems st) →
  Forall (Forall consistent) (batchItems <$> emits evs st).
Proof.
  induction evs as [|ev evs IH]; intros st Hevs Hst; [constructor|].
  apply Forall_cons in Hevs as [Hev Hevs].
  assert (Forall consistent (batchItems (emit ev st))) as Hst'.
  { destruct (batchItems_emit ev st) as [-> | ->];
      [done|by apply applyProgress_consistent]. }
  cbn [emits fmap list_fmap]. constructor; [done|by apply IH].
Qed.

Lemma newItem_settled ident p : settled (newItem ident p).
Proof. repeat split; try done. by intros [[??] _]. Qed.

Lemma with_status_processing_settled item :
  settled item → settled (with_status Processing item).
Proof. intros (_ & _ & _ & Hx). repeat split; done. Qed.

Lemma completed_settled ev item : one_outcome ev → settled (completed ev item).
Proof.
  intros [[[r Hr] He] | [Hr He]]; unfold settled; simpl;
    rewrite ?Hr, ?He; simpl.
  - repeat split; try done. by intros [_ [??]].
  - destruct (ev_error ev) as [msg|]; [|done].
    repeat split; try done; try (by eexists). by intros [[??] _].
Qed.

Lemma applyProgress_settled ev l :
  one_outcome ev → Forall settled l → Forall settled (applyProgress ev l).
Proof.
  intros Hev Hl. apply Forall_lookup_2. intros i item.
  rewrite lookup_applyProgress.
  destruct (l !! i) as [item0|] eqn:Hi; [|done]. simpl. intros [= <-].
  destruct (decide _); [by apply completed_settled|by eapply Forall_lookup_1].
Qed.

Lemma emits_settled evs : ∀ s,
  Forall one_outcome evs → Forall settled (batchItems s) →
  Forall (Forall settled) (batchItems <$> emits evs s) ∧
  Forall settled (batchItems (foldl (λ s ev, emit ev s) s evs)).
Proof.
  induction evs as [|ev evs IH]; intros s Hevs Hs; [by split; [constructor|]|].
  apply Forall_cons in Hevs as [Hev Hevs].
  assert (Forall settled (batchItems (emit ev s))) as Hs'.
  { destruct (batchItems_emit ev s) as [-> | ->];
      [done|by apply applyProgress_settled]. }
  destruct (IH (emit ev s) Hevs Hs') as [IH1 IH2].
  cbn [emits fmap list_fmap foldl]. split; [by constructor|done].
Qed.

(** C4 (amended). In a run whose events each report exactly one outcome
    (a payload and no error, or a non-empty error and no payload), every
    item at every moment is such that: [Done] it has a payload and no
    error, [Error] it has an error and no payload, [Pending] it has
    neither, and it never has both. When moreover no event is delivered
    before the bulk dispatch, every item at every moment has a payload
    exactly when it is [Done] and an error exactly when it is [Error], so
    that both are absent while it is [Pending] or [Processing]. *)
Theorem run_items_consistent (paths : list string)
    (early evs : list BatchProgressEvent) (st : App) :
  Forall one_outcome early → Forall one_outcome evs →
  Forall (Forall settled) (batchItems <$> run generateId paths early evs st) ∧
  Forall (Forall consistent) (batchItems <$> run generateId paths [] evs st).
Proof.
  intros Hearly Hevs. split.
  - assert (Forall settled (batchItems (processBatch_call generateId paths st).2))
      as Hc.
    { rewrite batchItems_created. apply Forall_lookup_2.
      intros i item [p [_ ->]]%list_lookup_imap_Some. apply newItem_settled. }
    destruct (emits_settled early _ Hearly Hc) as [He1 He2].
    assert (Forall settled (batchItems (dispatched generateId paths early st)))
      as Hd.
    { unfold dispatched. rewrite batchItems_listened. apply Forall_fmap.
      eapply Forall_impl; [exact He2|]. apply with_status_processing_settled. }
    destruct (emits_settled evs _ Hevs Hd) as [Hl1 _].
    unfold run. rewrite fmap_cons, fmap_app, fmap_cons.
    constructor; [done|]. apply Forall_app. split; [done|by constructor].
  - unfold run. cbn [emits app]. rewrite dispatched_nil. cbn [fmap list_fmap].
    assert (Forall consistent (batchItems (processBatch generateId paths st)))
      as Hd.
    { rewrite batchItems_dispatched, batchItems_created.
      apply Forall_fmap, Forall_lookup_2.
      intros i item [p [_ ->]]%list_lookup_imap_Some.
      split; split; simpl; try done; by intros [??]. }
    constructor; [|constructor; [done|by apply emits_consistent]].
    rewrite batchItems_created. apply Forall_lookup_2.
    intros i item [p [_ ->]]%list_lookup_imap_Some.
    split; split; simpl; try done; by intros [??].
Qed.

End Runs.

(** ** Single image, clipboard, reset, saving, dispatch *)

Section Single.

Variable generateId : nat → string.
Variable convertFileSrc : string → string.

(** C5 (amended). Whatever the state in which a failure is handled, it
    surfaces exactly one error and writes no result. A path-based process
    that fails sets the toast to its message and clears the processing
    flag of the current entry, whose source and result stay as they were;
    the result is empty when the failure is handled straight after the
    call. A clipboard capture that fails sets the toast, returns to idle
    and clears the single-image state. A clipboard reprocess that fails
    sets the toast and keeps the result that was there. *)
Theorem failed_invocation_surfaces_one_error
    (st s : App) (path preview : string) (e : Thrown) :
  (globalError (processSinglePath_catch e s) =
     Some ("Erreur de traitement : " +:+ toMsg e) ∧
   shown (processSinglePath_catch e s) =
     shown s ++ ["Erreur de traitement : " +:+ toMsg e] ∧
   single_resultDataUrl <$> single (processSinglePath_catch e s) =
     single_resultDataUrl <$> single s ∧
   single_sourcePath <$> single (processSinglePath_catch e s) =
     single_sourcePath <$> single s ∧
   isProcessing <$> single (processSinglePath_catch e s) =
     (λ _, false) <$> single s ∧
   mode (processSinglePath_catch e s) = mode s ∧
   batchItems (processSinglePath_catch e s) = batchItems s) ∧
  single (processSinglePath_catch e (processSinglePath_call path preview st)) =
    Some {| single_sourceDataUrl := preview; single_sourcePath := path;
            single_resultDataUrl := ""; isProcessing := false |} ∧
  (globalError (processClipboard_catch e s) =
     Some ("Erreur clipboard : " +:+ toMsg e) ∧
   shown (processClipboard_catch e s) =
     shown s ++ ["Erreur clipboard : " +:+ toMsg e] ∧
   mode (processClipboard_catch e s) = Idle ∧
   single (processClipboard_catch e s) = None ∧
   batchItems (processClipboard_catch e s) = batchItems s) ∧
  (globalError (reprocessClipboard_catch e s) =
     Some ("Erreur retraitement clipboard : " +:+ toMsg e) ∧
   shown (reprocessClipboard_catch e s) =
     shown s ++ ["Erreur retraitement clipboard : " +:+ toMsg e] ∧
   single_resultDataUrl <$> single (reprocessClipboard_catch e s) =
     single_resultDataUrl <$> single s ∧
   isProcessing <$> single (reprocessClipboard_catch e s) =
     (λ _, false) <$> single s ∧
   mode (reprocessClipboard_catch e s) = mode s ∧
   batchItems (reprocessClipboard_catch e s) = batchItems s).
Proof.
  split_and!; try reflexivity.
  all: cbn [single processSinglePath_catch reprocessClipboard_catch showError
            set_single set_shown set_globalError]; by destruct (single s).
Qed.

(** *** Background changes *)

Lemma singleSourceRef_processBatch paths st :
  singleSourceRef (processBatch generateId paths st) = None.
Proof. reflexivity. Qed.

Lemma setBackground_no_source b s :
  singleSourceRef s = None → invoked (setBackground b s) = invoked s.
Proof.
  intros Hsrc. unfold setBackground, backgroundEffect.
  cbn [bgInitRef singleSourceRef mode set_bg]. rewrite Hsrc.
  by destruct (bgInitRef s).
Qed.

(** C6 (amended). Once the first render is over and while the component
    is in single mode: with a clipboard-origin source remembered (empty
    path), a background change runs the clipboard reprocess with the new
    background, which issues [reprocess_clipboard_image] and nothing
    else (no clipboard capture) and whose result replaces the shown one;
    with a path-based source remembered, it re-runs the path-based
    process on the remembered path and preview. After a batch submission
    no source is remembered and a background change issues no command. *)
Theorem background_change_reprocesses (st : App) (b : BackgroundColor) :
  bgInitRef st = false → mode st = Single →
  (∀ d, singleSourceRef st = Some ("", d) →
     setBackground b st = reprocessClipboard_call (set_bg b st) ∧
     invoked (setBackground b st) =
       invoked st ++ [reprocess_clipboard_image {| background := b |}] ∧
     ∀ result,
       single (reprocessClipboard_then result (setBackground b st)) =
       with_result result <$> single st) ∧
  (∀ p d, p ≠ "" → singleSourceRef st = Some (p, d) →
     setBackground b st = processSinglePath_call p d (set_bg b st) ∧
     invoked (setBackground b st) =
       invoked st ++ [process_single_image p {| background := b |}]) ∧
  (∀ paths st0,
     singleSourceRef (processBatch generateId paths st0) = None ∧
     invoked (setBackground b (processBatch generateId paths st0)) =
       invoked (processBatch generateId paths st0)).
Proof.
  intros Hinit Hmode. split_and!.
  - intros d Hsrc. unfold setBackground, backgroundEffect.
    cbn [bgInitRef singleSourceRef mode set_bg]. rewrite Hinit, Hsrc, Hmode.
    rewrite decide_True by done. rewrite decide_True by done.
    split_and!; [done..|]. intros result. simpl. by destruct (single st).
  - intros p d Hp Hsrc. unfold setBackground, backgroundEffect.
    cbn [bgInitRef singleSourceRef mode set_bg]. rewrite Hinit, Hsrc, Hmode.
    rewrite decide_True by done. by rewrite decide_False by done.
  - intros paths st0. split; [apply singleSourceRef_processBatch|].
    apply setBackground_no_source, singleSourceRef_processBatch.
Qed.

(** *** Reset *)




(** *** Saving *)

Lemma pop_split p : Js.pop (Js.split p) = Some (basename p).
Proof.
  unfold basename, Js.pop.
  destruct (last (Js.split p)) eqn:Hlast; [done|].
  apply last_None in Hlast. by apply split_not_nil in Hlast.
Qed.

Lemma no_dot_spec s : Js.no_dot s = true ↔ free_of is_full_stop s.
Proof.
  unfold free_of, is_full_stop. induction s as [|a s IH]; simpl.
  - split; [|done]. intros _ [|b pre] c post; rewrite ?app_String; discriminate.
  - rewrite andb_true_iff, negb_true_iff, IH. split.
    + intros [Ha Hs] [|b pre] c post.
      * rewrite app_empty_l. intros [= <- _] ->. by rewrite Ascii.eqb_refl in Ha.
      * rewrite app_String. intros [= _ ->]. by eapply Hs.
    + intros H. split.
      * apply not_true_is_false. intros ->%Ascii.eqb_eq.
        by apply (H "" "."%char s).
      * intros pre c post ->. by apply (H (String a pre) c post).
Qed.

Lemma length_append x y :
  String.length (x +:+ y) = String.length x + String.length y.
Proof. induction x as [|a x IH]; [done|]. rewrite app_String. simpl. by rewrite IH. Qed.

Lemma has_extension_replace_ext name stem ext :
  has_extension name stem ext → Js.replace_ext name = stem.
Proof.
  intros (Hne & Hfree & ->). apply replace_ext_stem.
  - by destruct ext.
  - by apply no_dot_spec.
Qed.

(** The pattern cuts the extension, as [stem_of] says it. *)
Lemma stem_of_replace_ext name stem :
  stem_of name stem ↔ Js.replace_ext name = stem.
Proof.
  split.
  - intros [[ext Hext] | [-> Hnone]]; [by eapply has_extension_replace_ext|].
    destruct (replace_ext_cases name) as [Heq|(ext & Hne & Hnd & Hname)]; [done|].
    exfalso. apply (Hnone (Js.replace_ext name) ext).
    split_and!; [by destruct ext|by apply no_dot_spec|done].
  - intros <-.
    destruct (replace_ext_cases name) as [Heq|(ext & Hne & Hnd & Hname)].
    + right. split; [done|]. intros stem' ext Hext.
      pose proof (has_extension_replace_ext _ _ _ Hext) as Hstem.
      destruct Hext as (_ & _ & Hname). rewrite Heq in Hstem. subst stem'.
      apply (f_equal String.length) in Hname.
      rewrite length_append in Hname. simpl in Hname. lia.
    + left. exists ext. split_and!; [by destruct ext|by apply no_dot_spec|done].
Qed.

(** C9. When a single result is saved, the name offered is the stem
    followed by "_nobg.png", the stem being the file name of the source
    path (the text after its last ['/'] or ['\']) with its extension
    stripped (a last full stop and the non-empty text after it), or
    "output" when there is no source path (clipboard origin). When a
    batch item is saved, the name offered is built in the same way from
    the file name of the path the item was made from. Every name has
    such a stem. *)
Theorem suggested_file_name :
  (∀ st s fname stem, single st = Some s → single_resultDataUrl s ≠ "" →
     single_sourcePath s ≠ "" →
     final_segment (single_sourcePath s) fname → stem_of fname stem →
     handleSaveSingle st = Some (stem +:+ "_nobg.png")) ∧
  (∀ st s, single st = Some s → single_resultDataUrl s ≠ "" →
     single_sourcePath s = "" →
     handleSaveSingle st = Some "output_nobg.png") ∧
  (∀ ident p ev u fname stem, result_data_url ev = Some u → u ≠ "" →
     final_segment p fname → stem_of fname stem →
     handleSaveOne (completed ev (with_status Processing (newItem ident p))) =
       Some (stem +:+ "_nobg.png")) ∧
  (∀ item u stem, resultDataUrl item = Some u → u ≠ "" →
     stem_of (name item) stem →
     handleSaveOne item = Some (stem +:+ "_nobg.png")) ∧
  (∀ p, ∃ fname stem, final_segment p fname ∧ stem_of fname stem).
Proof.
  split_and!.
  - intros st s fname stem Hs Hres Hpath Hf Hstem.
    apply final_segment_basename in Hf. apply stem_of_replace_ext in Hstem.
    unfold handleSaveSingle. rewrite Hs.
    destruct (single_resultDataUrl s); [done|]. cbn [Js.truthy_string].
    destruct (single_sourcePath s) eqn:Hp; [done|]. cbn [Js.truthy_string].
    rewrite pop_split. cbn [fmap option_fmap option_map default].
    by rewrite Hf, Hstem.
  - intros st s Hs Hres Hpath. unfold handleSaveSingle. rewrite Hs, Hpath.
    by destruct (single_resultDataUrl s).
  - intros ident p ev u fname stem Hu Hne Hf Hstem.
    apply final_segment_basename in Hf. apply stem_of_replace_ext in Hstem.
    unfold handleSaveOne. cbn [resultDataUrl completed name with_status newItem].
    rewrite Hu. destruct u; [done|]. cbn [Js.truthy Js.truthy_string].
    by rewrite Hf, Hstem.
  - intros item u stem Hu Hne Hstem. apply stem_of_replace_ext in Hstem.
    unfold handleSaveOne. rewrite Hu. destruct u; [done|].
    cbn [Js.truthy Js.truthy_string]. by rewrite Hstem.
  - intros p. exists (basename p), (Js.replace_ext (basename p)).
    split; [apply basename_final_segment|by apply stem_of_replace_ext].
Qed.

(** *** Dispatch *)

(** C10. A list of one path goes to the single-image pipeline, which
    processes that path and leaves the batch list alone; a list of two or
    more goes to the batch pipeline, which processes all of them and
    leaves the single-image state alone; either way exactly one backend
    command is issued. *)
Theorem handlePaths_routes (paths : list string) (st : App) :
  (∀ p, paths = [p] →
     handlePaths generateId convertFileSrc paths st =
       processSinglePath_call p (convertFileSrc p) st ∧
     invoked (handlePaths generateId convertFileSrc paths st) =
       invoked st ++ [process_single_image p (getOptions st)] ∧
     mode (handlePaths generateId convertFileSrc paths st) = Single ∧
     batchItems (handlePaths generateId convertFileSrc paths st) = batchItems st) ∧
  (2 ≤ length paths →
     handlePaths generateId convertFileSrc paths st =
       processBatch generateId paths st ∧
     invoked (handlePaths generateId convertFileSrc paths st) =
       invoked st ++ [process_batch_images paths (getOptions st)] ∧
     mode (handlePaths generateId convertFileSrc paths st) = Batch ∧
     length (batchItems (handlePaths generateId convertFileSrc paths st)) =
       length paths ∧
     single (handlePaths generateId convertFileSrc paths st) = single st).
Proof.
  split.
  - intros p ->. done.
  - intros Hlen.
    assert (handlePaths generateId convertFileSrc paths st =
            processBatch generateId paths st) as ->.
    { destruct paths as [|p [|q paths]]; simpl in Hlen; [lia|lia|done]. }
    split_and!; try reflexivity.
    change (batchItems (processBatch generateId paths st))
      with (with_status Processing <$>
            imap (λ i p, newItem (generateId (idsDrawn st + i)) p) paths).
    by rewrite length_fmap, length_imap.
Qed.

End Single.

(** ** Compositing *)

Section Compositing.

Import Compositor.

(** C8. With buffers of matching dimensions and the [Transparent]
    background, compositing succeeds, keeps the dimensions, and at every
    pixel keeps the three colour channels of the source and takes the
    mask value as alpha. *)
Theorem composite_transparent (pixels : Buffer Pixel) (mask : Buffer Z) :
  width pixels = width mask → height pixels = height mask →
  length (data pixels) = length (data mask) →
  ∃ out, composite pixels mask Transparent = Some out ∧
    width out = width pixels ∧ height out = height pixels ∧
    length (data out) = length (data pixels) ∧
    ∀ i p m, data pixels !! i = Some p → data mask !! i = Some m →
      ∃ q, data out !! i = Some q ∧
           red q = red p ∧ green q = green p ∧ blue q = blue p ∧ alpha q = m.
Proof.
  intros Hw Hh Hlen. unfold composite. rewrite decide_True by done.
  eexists. split; [done|]. simpl. split_and!; try done.
  - rewrite length_zip_with. lia.
  - intros i p m Hp Hm. eexists. rewrite lookup_zip_with, Hp, Hm. simpl.
    split_and!; done.
Qed.

End Compositing.

(** ** Concrete runs *)

Section Concrete.

Import Samples.

Example split_windows : Js.split "C:\pics\cat.png" = ["C:"; "pics"; "cat.png"].
Proof. reflexivity. Qed.

Example split_mixed : Js.split "a/b\c//d" = ["a"; "b"; "c"; ""; "d"].
Proof. reflexivity. Qed.

Example basename_windows : basename "C:\pics\cat.png" = "cat.png".
Proof. reflexivity. Qed.

Example basename_posix : basename "/home/me/dog.final.jpg" = "dog.final.jpg".
Proof. reflexivity. Qed.

Example basename_trailing_separator : basename "/home/me/" = "".
Proof. reflexivity. Qed.

Example replace_ext_last_only : Js.replace_ext "dog.final.jpg" = "dog.final".
Proof. reflexivity. Qed.

Example replace_ext_trailing_dot : Js.replace_ext "notes." = "notes.".
Proof. reflexivity. Qed.

Example replace_ext_hidden : Js.replace_ext ".bashrc" = "".
Proof. reflexivity. Qed.

Example save_single_path :
  handleSaveSingle
    (processSinglePath_then "data:r"
       (handlePaths sample_id sample_src ["C:\pics\cat.png"] mount))
  = Some "cat_nobg.png".
Proof. vm_compute. reflexivity. Qed.

Example save_single_clipboard : handleSaveSingle captured = Some "output_nobg.png".
Proof. vm_compute. reflexivity. Qed.

(** The statuses of a two-item run whose second item completes first. *)
Example run_out_of_order :
  let states := run sample_id two_paths [] [succeeded 1 "data:d"; failed 0 "boom"] mount in
  (λ t, (status_at t 0 states, status_at t 1 states)) <$> [0; 1; 2; 3] =
  [(Some Pending, Some Pending); (Some Processing, Some Processing);
   (Some Processing, Some Done); (Some Error, Some Done)].
Proof. vm_compute. reflexivity. Qed.

(** The same run when the first event is delivered while the
    subscription is being set up. *)
Example run_with_early_event :
  let states := run sample_id two_paths [succeeded 1 "data:d"] [failed 0 "boom"] mount in
  (λ t, (status_at t 0 states, status_at t 1 states)) <$> [0; 1; 2; 3] =
  [(Some Pending, Some Pending); (Some Pending, Some Done);
   (Some Processing, Some Processing); (Some Error, Some Processing)].
Proof. vm_compute. reflexivity. Qed.

(** C1, as first stated, fails: an event delivered while the
    subscription is being set up is applied before the bulk change (the
    other item is still [Pending]); the bulk change then puts the item
    back to [Processing], payload kept. *)
Lemma event_applied_before_bulk_dispatch :
  let states := run sample_id two_paths [succeeded 0 "data:d"] [] mount in
  status_at 1 0 states = Some Done ∧ status_at 1 1 states = Some Pending ∧
  status_at 2 0 states = Some Processing ∧
  status_at 2 1 states = Some Processing ∧
  payload_at 2 0 states = Some (Some "data:d").
Proof. split_and!; vm_compute; reflexivity. Qed.

Example one_path_goes_single :
  invoked (handlePaths sample_id sample_src ["/home/me/dog.final.jpg"] mount) =
  [process_single_image "/home/me/dog.final.jpg" {| background := Transparent |}].
Proof. vm_compute. reflexivity. Qed.

Example two_paths_go_batch :
  invoked (handlePaths sample_id sample_src two_paths mount) =
  [process_batch_images two_paths {| background := Transparent |}].
Proof. vm_compute. reflexivity. Qed.

(** A run is reset after its first completion; the second completion
    arrives afterwards and changes nothing. *)
Example late_event_after_reset :
  let running := emit (succeeded 1 "data:d") (processBatch sample_id two_paths mount) in
  listeners running = [0] ∧
  listeners (handleReset running) = [] ∧
  emit (failed 0 "boom") (handleReset running) = handleReset running.
Proof. split_and!; vm_compute; reflexivity. Qed.

(** A failed clipboard capture from the idle screen. *)
Example failed_capture :
  let st := processClipboard_catch (ThrownString "no image") (processClipboard_call mount) in
  mode st = Idle ∧ single st = None ∧ shown st = ["Erreur clipboard : no image"].
Proof. split_and!; vm_compute; reflexivity. Qed.

(** C2, as first stated, fails: an event whose error is present but
    empty leaves the addressed item [Done], not [Error]. *)
Lemma empty_error_is_done :
  let ev := failed 0 "" in
  let prev := [with_status Processing (newItem "#" "cat.png")] in
  is_Some (ev_error ev) ∧
  status <$> applyProgress ev prev !! 0 = Some Done ∧
  error <$> applyProgress ev prev !! 0 = Some (Some "").
Proof. split; [by eexists|]. split; reflexivity. Qed.

(** C3, as first stated, fails: a second event for the same index turns
    a [Done] item into an [Error] one; and an event delivered before the
    bulk dispatch makes an item [Done] that the dispatch then returns to
    [Processing]. *)
Lemma repeated_index_overwrites_done :
  let states := run sample_id ["cat.png"] []
                  [succeeded 0 "data:d"; failed 0 "late"] mount in
  let early := run sample_id ["cat.png"] [succeeded 0 "data:d"] [] mount in
  (status_at 2 0 states = Some Done ∧ status_at 3 0 states = Some Error) ∧
  (status_at 1 0 early = Some Done ∧ status_at 2 0 early = Some Processing).
Proof. split; split; vm_compute; reflexivity. Qed.

(** C3 (amended), on a run of two items completing out of order, alone
    and after an early delivery. *)
Lemma run_status_forward_witness :
  NoDup (index <$> [succeeded 1 "data:d"; failed 0 "boom"]) ∧
  (StronglySorted items_forward
     (batchItems <$> run sample_id two_paths []
                       [succeeded 1 "data:d"; failed 0 "boom"] mount) ∧
   StronglySorted items_forward
     (batchItems <$>
      drop (S (length [succeeded 0 "data:e"]))
        (run sample_id two_paths [succeeded 0 "data:e"]
           [succeeded 1 "data:d"; failed 0 "boom"] mount)) ∧
   (∀ a b, a = Done ∨ a = Error → forward a b → b = a)).
Proof.
  assert (NoDup (index <$> [succeeded 1 "data:d"; failed 0 "boom"])) as Hnd.
  { simpl. apply NoDup_cons. split; [|apply NoDup_singleton].
    intros Hin%list_elem_of_singleton. discriminate. }
  split; [exact Hnd|].
  exact (run_status_forward sample_id two_paths [succeeded 0 "data:e"] _ mount Hnd).
Defined.

(** C4, as first stated, fails: after an event with neither payload nor
    error the item is [Done] and has no payload; and after an event with
    a payload delivered before the bulk dispatch the item is [Processing]
    and has one. *)
Lemma silent_event_done_without_payload :
  let states := run sample_id ["cat.png"] [] [silent 0] mount in
  let early := run sample_id ["cat.png"] [succeeded 0 "data:d"] [] mount in
  (status_at 2 0 states = Some Done ∧ payload_at 2 0 states = Some None) ∧
  (status_at 2 0 early = Some Processing ∧
   payload_at 2 0 early = Some (Some "data:d")).
Proof. split; split; vm_compute; reflexivity. Qed.

(** C4 (amended), on a run with one success and one failure after an
    early success. *)
Lemma run_items_consistent_witness :
  Forall one_outcome [succeeded 0 "data:e"] ∧
  Forall one_outcome [succeeded 1 "data:d"; failed 0 "boom"] ∧
  (Forall (Forall settled)
     (batchItems <$> run sample_id two_paths [succeeded 0 "data:e"]
                       [succeeded 1 "data:d"; failed 0 "boom"] mount) ∧
   Forall (Forall consistent)
     (batchItems <$> run sample_id two_paths []
                       [succeeded 1 "data:d"; failed 0 "boom"] mount)).
Proof.
  assert (Forall one_outcome [succeeded 0 "data:e"]) as Hearly.
  { apply Forall_cons. split; [left; split; [by eexists|done]|constructor]. }
  assert (Forall one_outcome [succeeded 1 "data:d"; failed 0 "boom"]) as Hevs.
  { apply Forall_cons. split; [left; split; [by eexists|done]|].
    apply Forall_cons. split; [by right|constructor]. }
  split; [exact Hearly|]. split; [exact Hevs|].
  exact (run_items_consistent sample_id two_paths _ _ mount Hearly Hevs).
Defined.

(** C5, as first stated, fails: the first image's result arrives in the
    entry of the second, whose processing then fails; the failed process
    leaves a result in place, not an empty one. *)
Lemma failed_process_keeps_an_earlier_result :
  let st := after sample_id sample_src
              [DoPaths ["a.png"]; DoReset; DoPaths ["b.png"];
               DoSingleResolved "data:a"; DoSingleRejected (ThrownString "boom")] in
  single st =
    Some {| single_sourceDataUrl := sample_src "b.png";
            single_sourcePath := "b.png";
            single_resultDataUrl := "data:a"; isProcessing := false |} ∧
  globalError st = Some "Erreur de traitement : boom".
Proof. split; vm_compute; reflexivity. Qed.


(** C6, as first stated, fails: a clipboard-origin source is remembered,
    yet a background change issues no command, because the component is
    not in single mode. *)
Lemma remembered_clipboard_not_reprocessed_outside_single :
  singleSourceRef capture_reset_then_resolved = Some ("", "data:r") ∧
  bgInitRef capture_reset_then_resolved = false ∧
  mode capture_reset_then_resolved = Idle ∧
  invoked (setBackground White capture_reset_then_resolved) =
    invoked capture_reset_then_resolved.
Proof. split_and!; vm_compute; reflexivity. Qed.

(** C6 (amended), after a successful clipboard capture. *)
Lemma background_change_reprocesses_witness :
  bgInitRef captured = false ∧ mode captured = Single ∧
  singleSourceRef captured = Some ("", "data:r") ∧
  invoked (setBackground White captured) =
    invoked captured ++ [reprocess_clipboard_image {| background := White |}].
Proof.
  split; [reflexivity|]. split; [reflexivity|]. split; [reflexivity|].
  exact (proj1 (proj2 (proj1
    (background_change_reprocesses sample_id captured White eq_refl eq_refl)
    "data:r" eq_refl))).
Defined.

(** C8, on a buffer of two pixels. *)
Lemma composite_transparent_witness :
  Compositor.width two_pixels = Compositor.width two_masks ∧
  Compositor.height two_pixels = Compositor.height two_masks ∧
  length (Compositor.data two_pixels) = length (Compositor.data two_masks) ∧
  ∃ out, Compositor.composite two_pixels two_masks Transparent = Some out ∧
    Compositor.data out = [px 10 20 30 0; px 200 100 0 128].
Proof.
  split; [reflexivity|]. split; [reflexivity|]. split; [reflexivity|].
  destruct (composite_transparent two_pixels two_masks eq_refl eq_refl eq_refl)
    as (out & Hout & _).
  exists out. split; [exact Hout|].
  vm_compute in Hout. by injection Hout as <-.
Defined.

End Concrete.

(** * Further properties of the code *)

(** ** The drop zone's filter *)

Section DropZoneFacts.

Import DropZone.

Variable generateId : nat → string.
Variable convertFileSrc : string → string.

Lemma split_by_not_nil sep s : split_by sep s ≠ [].
Proof.
  destruct s as [|c r]; simpl; [done|].
  destruct (sep c); [done|]. by destruct (split_by sep r).
Qed.

Lemma split_by_app_sep sep pre c post :
  sep c = true →
  split_by sep (pre +:+ String c post) = split_by sep pre ++ split_by sep post.
Proof.
  intros Hc. induction pre as [|a pre IH].
  - rewrite app_empty_l. simpl. by rewrite Hc.
  - rewrite app_String. simpl. rewrite IH.
    destruct (sep a); [done|].
    pose proof (split_by_not_nil sep pre) as Hne.
    by destruct (split_by sep pre).
Qed.

Lemma split_by_free sep s :
  all_chars (λ c, negb (sep c)) s = true → split_by sep s = [s].
Proof.
  induction s as [|a s IH]; [done|]. simpl.
  intros [Ha Hs]%andb_prop. apply negb_true_iff in Ha.
  by rewrite Ha, IH.
Qed.

Lemma no_dot_all_chars s :
  Js.no_dot s = all_chars (λ c, negb (is_dot c)) s.
Proof. induction s as [|a s IH]; [done|]. simpl. by rewrite IH. Qed.

Lemma extension_of_suffix stem ext :
  Js.no_dot ext = true → extension (stem +:+ String "." ext) = toLowerCase ext.
Proof.
  intros Hext. rewrite no_dot_all_chars in Hext.
  unfold extension, Js.pop.
  rewrite split_by_app_sep by done.
  by rewrite last_app, (split_by_free is_dot ext).
Qed.

Lemma extension_of_dot_free p :
  Js.no_dot p = true → extension p = toLowerCase p.
Proof.
  intros Hp. rewrite no_dot_all_chars in Hp.
  unfold extension, Js.pop. by rewrite (split_by_free is_dot p).
Qed.

(** X1. Whether a path is taken as an image is decided by the text after
    its last dot alone, lowered, whatever comes before; a path with no dot
    at all is judged by its whole text. *)
Theorem isImagePath_by_last_extension (stem ext : string) :
  Js.no_dot ext = true →
  isImagePath (stem +:+ String "." ext) =
    bool_decide (toLowerCase ext ∈ ACCEPTED_EXTENSIONS) ∧
  isImagePath ext = bool_decide (toLowerCase ext ∈ ACCEPTED_EXTENSIONS).
Proof.
  intros Hext. unfold isImagePath.
  by rewrite extension_of_suffix, extension_of_dot_free.
Qed.

Lemma is_dot_lower c : is_dot (lower_char c) = is_dot c.
Proof. by destruct c as [[] [] [] [] [] [] [] []]. Qed.

Lemma is_sep_lower c : Js.is_sep (lower_char c) = Js.is_sep c.
Proof. by destruct c as [[] [] [] [] [] [] [] []]. Qed.

Lemma split_by_lower s :
  split_by is_dot (toLowerCase s) = toLowerCase <$> split_by is_dot s.
Proof.
  induction s as [|a s IH]; [done|]. simpl.
  rewrite is_dot_lower, IH. destruct (is_dot a); [done|].
  pose proof (split_by_not_nil is_dot s) as Hne.
  by destruct (split_by is_dot s).
Qed.

Lemma extension_lower p :
  extension p = default "" (last (split_by is_dot (toLowerCase p))).
Proof.
  unfold extension, Js.pop. by rewrite split_by_lower, fmap_last.
Qed.

(** X2. The filter ignores letter case: two paths that differ only in
    the case of their letters are both taken or both left. *)
Theorem isImagePath_ignores_case (p q : string) :
  toLowerCase p = toLowerCase q → isImagePath p = isImagePath q.
Proof.
  intros Hpq. unfold isImagePath. by rewrite !extension_lower, Hpq.
Qed.

Lemma filter_images_all (paths : list string) :
  Forall (λ p, isImagePath p = true) (filter (λ p, isImagePath p = true) paths).
Proof. apply Forall_forall. by intros p [Hp _]%list_elem_of_filter. Qed.

(** X3. A drop while the zone is disabled, without paths, or without any
    accepted path changes nothing. Otherwise the accepted paths, in the
    order dropped, go to [handlePaths], the others being skipped: one
    accepted path among many dropped is processed as a single image, and
    two or more make a batch with one item per accepted path. The file
    dialog's answer is treated the same way. *)
Theorem onDrop_filters_then_routes
    (disabled : bool) (paths : list string) (st : App) :
  let images := filter (λ p, isImagePath p = true) paths in
  (disabled = true ∨ images = [] →
     onDrop generateId convertFileSrc disabled (Some paths) st = st) ∧
  onDrop generateId convertFileSrc disabled None st = st ∧
  (disabled = false → images ≠ [] →
     onDrop generateId convertFileSrc disabled (Some paths) st =
       handlePaths generateId convertFileSrc images st) ∧
  (disabled = false → ∀ p, images = [p] →
     onDrop generateId convertFileSrc disabled (Some paths) st =
       processSinglePath_call p (convertFileSrc p) st) ∧
  (disabled = false → 2 ≤ length images →
     Forall2 (λ p item, sourcePath item = Some p ∧ isImagePath p = true ∧
                        status item = Processing)
       images
       (batchItems (onDrop generateId convertFileSrc disabled (Some paths) st))) ∧
  (∀ selected,
     handleBrowse generateId convertFileSrc disabled selected st =
     onDrop generateId convertFileSrc disabled
       match selected with
       | NoSelection => None
       | OneFile p => Some [p]
       | ManyFiles l => Some l
       end st).
Proof.
  intros images. pose proof (filter_images_all paths) as Hall.
  assert (onDrop generateId convertFileSrc disabled (Some paths) st =
          if disabled then st
          else if bool_decide (0 < length images)
               then handlePaths generateId convertFileSrc images st
               else st) as -> by reflexivity.
  change (Forall (λ p, isImagePath p = true) images) in Hall.
  clearbody images.
  split_and!.
  - intros [-> | Himg]; [done|]. rewrite Himg. by destruct disabled.
  - by destruct disabled.
  - intros -> Hne. destruct images; [done|]. done.
  - intros -> p Hp. by rewrite Hp.
  - intros -> Hlen.
    destruct images as [|p [|q rest]]; simpl in Hlen; [lia|lia|].
    rewrite bool_decide_true by (simpl; lia).
    change (batchItems (handlePaths generateId convertFileSrc (p :: q :: rest) st))
      with (with_status Processing <$>
            imap (λ i x, newItem (generateId (idsDrawn st + i)) x) (p :: q :: rest)).
    rewrite fmap_imap. apply Forall2_imap_r. intros i x Hi.
    split_and!; [done| |done].
    eapply Forall_lookup_1 in Hall; [|exact Hi]. done.
  - intros selected. unfold handleBrowse. destruct disabled; [by destruct selected|].
    destruct selected as [|p|l]; [done| |done].
    destruct p; [|done]. done.
Qed.

Lemma all_chars_lower P s :
  (∀ c, P (lower_char c) = P c) →
  all_chars P (toLowerCase s) = all_chars P s.
Proof.
  intros HP. induction s as [|a s IH]; [done|]. simpl. by rewrite HP, IH.
Qed.

Lemma sep_free_all_chars s :
  all_chars (λ c, negb (Js.is_sep c)) s = true → sep_free s.
Proof.
  induction s as [|a s IH]; simpl; [intros _; apply sep_free_empty|].
  intros [Ha Hs]%andb_prop. apply negb_true_iff in Ha.
  by apply sep_free_String; [|apply IH].
Qed.

Lemma sep_free_app s t : sep_free s → sep_free t → sep_free (s +:+ t).
Proof.
  induction s as [|a s IH]; intros Hs Ht; [done|].
  rewrite app_String. apply sep_free_String.
  - by apply (Hs "" a s).
  - apply IH; [by eapply sep_free_tail|done].
Qed.

Lemma basename_app p t : sep_free t → basename (p +:+ t) = basename p +:+ t.
Proof.
  intros Ht. unfold basename, Js.pop.
  destruct (last_separator p) as [Hfree|(pre & c & s & Hc & Hs & ->)].
  - rewrite (split_sep_free p) by done.
    by rewrite (split_sep_free (p +:+ t)) by (by apply sep_free_app).
  - assert ((pre +:+ String c s) +:+ t = pre +:+ String c (s +:+ t)) as ->.
    { clear. induction pre as [|a pre IH]; [done|].
      rewrite !app_String. by f_equal. }
    rewrite !split_app_sep, !last_app by done.
    rewrite (split_sep_free s) by done.
    by rewrite (split_sep_free (s +:+ t)) by (by apply sep_free_app).
Qed.

Lemma accepted_plain (e : string) :
  e ∈ ACCEPTED_EXTENSIONS →
  all_chars (λ c, negb (Js.is_sep c)) e = true ∧ Js.truthy_string e = true.
Proof.
  revert e. apply Forall_forall. unfold ACCEPTED_EXTENSIONS.
  repeat (apply Forall_cons; split; [by split|]). constructor.
Qed.

Lemma accepted_suffix_plain stem ext :
  Js.no_dot ext = true → isImagePath (stem +:+ String "." ext) = true →
  all_chars (λ c, negb (Js.is_sep c)) ext = true ∧ Js.truthy_string ext = true.
Proof.
  intros Hnd Himg. unfold isImagePath in Himg.
  rewrite extension_of_suffix in Himg by done.
  apply bool_decide_eq_true in Himg. apply accepted_plain in Himg as [Hfree Hne].
  split.
  - rewrite <-Hfree. symmetry. apply all_chars_lower.
    intros c. by rewrite is_sep_lower.
  - by destruct ext.
Qed.

(** X4. A file the drop zone accepts for its extension, processed in a
    batch, is offered for saving under its own name with that extension
    replaced: [dir/name.EXT] gives [name_nobg.png]. *)
Theorem accepted_file_saved_under_its_stem
    (ident stem ext : string) (ev : BatchProgressEvent) :
  Js.no_dot ext = true →
  isImagePath (stem +:+ String "." ext) = true →
  Js.truthy (result_data_url ev) = true →
  handleSaveOne
    (completed ev (with_status Processing (newItem ident (stem +:+ String "." ext))))
  = Some (basename stem +:+ "_nobg.png").
Proof.
  intros Hnd Himg Hres.
  destruct (accepted_suffix_plain stem ext Hnd Himg) as [Hfree Hne].
  unfold handleSaveOne. cbn [resultDataUrl completed name with_status newItem].
  rewrite Hres. f_equal. f_equal.
  rewrite basename_app.
  - by apply replace_ext_stem.
  - apply sep_free_String; [done|by apply sep_free_all_chars].
Qed.

End DropZoneFacts.

(** ** More on completion events *)

Section Events.

Variable generateId : nat → string.

Lemma applyProgress_out_of_range ev (prev : list ImageItem) :
  (index ev < 0 ∨ Z.of_nat (length prev) ≤ index ev)%Z →
  applyProgress ev prev = prev.
Proof.
  intros Hout. apply list_eq. intros i. rewrite lookup_applyProgress.
  destruct (prev !! i) as [item|] eqn:Hi; [|done]. simpl.
  apply lookup_lt_Some in Hi. rewrite decide_False; [done|lia].
Qed.

(** X5. An event whose index is negative or past the end of the list
    changes no item, and delivering it leaves the whole state as it was. *)
Theorem out_of_range_event_ignored (ev : BatchProgressEvent) (st : App) :
  (index ev < 0 ∨ Z.of_nat (length (batchItems st)) ≤ index ev)%Z →
  applyProgress ev (batchItems st) = batchItems st ∧ emit ev st = st.
Proof.
  intros Hout. pose proof (applyProgress_out_of_range ev _ Hout) as Heq.
  split; [done|]. rewrite emit_eq. destruct (listeners st); [done|].
  unfold onBatchProgress. rewrite Heq. apply set_batchItems_same.
Qed.

(** X6. Of two events for the same index only the later one counts:
    applying both in turn gives what the later one alone gives. *)
Theorem later_event_overwrites_earlier
    (e1 e2 : BatchProgressEvent) (prev : list ImageItem) :
  index e1 = index e2 →
  applyProgress e2 (applyProgress e1 prev) = applyProgress e2 prev.
Proof.
  intros Heq. apply list_eq. intros i. rewrite !lookup_applyProgress.
  destruct (prev !! i) as [item|]; [|done]. simpl. rewrite Heq.
  by destruct (decide _).
Qed.

(** X7. Delivery is idempotent: an event delivered twice, or delivered
    once to several live subscriptions, leaves the state that one run of
    the listener leaves; with no live subscription it leaves the state
    alone. *)
Theorem emit_twice_is_once (ev : BatchProgressEvent) (st : App) :
  emit ev (emit ev st) = emit ev st ∧
  (listeners st ≠ [] → emit ev st = onBatchProgress ev st) ∧
  (listeners st = [] → emit ev st = st).
Proof.
  split_and!.
  - rewrite (emit_eq ev (emit ev st)), listeners_emit, (emit_eq ev st).
    destruct (listeners st); [done|]. apply onBatchProgress_idemp.
  - intros Hne. rewrite emit_eq. by destruct (listeners st).
  - intros Hnil. rewrite emit_eq. by rewrite Hnil.
Qed.

Lemma last_emits evs : ∀ st,
  last (st :: emits evs st) = Some (foldl (λ s ev, emit ev s) st evs).
Proof.
  induction evs as [|ev evs IH]; intros st; [done|].
  cbn [emits foldl]. rewrite last_cons_cons. apply IH.
Qed.

Lemma completed_terminal ev item : terminal (status (completed ev item)).
Proof. unfold terminal. simpl. destruct (Js.truthy _); auto. Qed.

Lemma foldl_emit_terminal evs : ∀ st k,
  listeners st ≠ [] →
  ((∀ item, batchItems st !! k = Some item → terminal (status item)) ∨
   Z.of_nat k ∈ index <$> evs) →
  ∀ item, batchItems (foldl (λ s ev, emit ev s) st evs) !! k = Some item →
          terminal (status item).
Proof.
  induction evs as [|ev evs IH]; intros st k Hls Hk.
  - destruct Hk as [Hk|Hk]; [done|]. by apply not_elem_of_nil in Hk.
  - cbn [foldl]. apply IH; [by rewrite listeners_emit|].
    assert (batchItems (emit ev st) = applyProgress ev (batchItems st)) as Hb.
    { rewrite emit_eq. by destruct (listeners st). }
    rewrite fmap_cons in Hk.
    destruct Hk as [Hk|[Hk|Hk]%elem_of_cons]; [left|left|by right].
    + intros item. rewrite Hb, lookup_applyProgress.
      destruct (batchItems st !! k) as [item0|] eqn:Hi; [|done]. simpl.
      intros [= <-]. destruct (decide _); [apply completed_terminal|by apply Hk].
    + intros item. rewrite Hb, lookup_applyProgress.
      destruct (batchItems st !! k) as [item0|] eqn:Hi; [|done]. simpl.
      intros [= <-]. rewrite decide_True by done. apply completed_terminal.
Qed.

Lemma length_foldl_emit evs : ∀ st,
  length (batchItems (foldl (λ s ev, emit ev s) st evs)) = length (batchItems st).
Proof.
  induction evs as [|ev evs IH]; intros st; [done|].
  cbn [foldl]. rewrite IH.
  destruct (batchItems_emit ev st) as [-> | ->]; [done|apply length_applyProgress].
Qed.

Lemma listeners_processBatch paths st :
  listeners (processBatch generateId paths st) ≠ [].
Proof.
  change (listeners (processBatch generateId paths st))
    with (match batchUnlistenRef st with
          | Some h => filter (λ k, k ≠ h) (listeners st)
          | None => listeners st
          end ++ [nextListener st]).
  intros [_ Hnil]%app_eq_nil. discriminate.
Qed.

Lemma listeners_created paths st :
  listeners (processBatch_call generateId paths st).2 ≠ [].
Proof.
  change (listeners (processBatch_call generateId paths st).2)
    with (match batchUnlistenRef st with
          | Some h => filter (λ k, k ≠ h) (listeners st)
          | None => listeners st
          end ++ [nextListener st]).
  intros [_ Hnil]%app_eq_nil. discriminate.
Qed.

Lemma listeners_listened h paths options s :
  listeners (processBatch_listened h paths options s) = listeners s.
Proof. reflexivity. Qed.

Lemma listeners_dispatched paths early st :
  listeners (dispatched generateId paths early st) ≠ [].
Proof.
  unfold dispatched, subscribed.
  rewrite listeners_listened, foldl_emit_listeners. apply listeners_created.
Qed.

Lemma length_dispatched paths early st :
  length (batchItems (dispatched generateId paths early st)) = length paths.
Proof.
  unfold dispatched, subscribed. rewrite batchItems_listened, length_fmap.
  apply (foldl_emit_items (λ l, length l = length paths)).
  - intros ev l <-. apply length_applyProgress.
  - by rewrite batchItems_created, length_imap.
Qed.

Lemma last_run paths early evs st :
  last (run generateId paths early evs st) =
  Some (foldl (λ s ev, emit ev s) (dispatched generateId paths early st) evs).
Proof.
  unfold run. rewrite last_cons, last_app, last_emits. done.
Qed.

(** X8. When the events delivered after the bulk dispatch, in whatever
    order and with whatever repeats or strays among them, address every
    position of the submitted list at least once, then, whatever was
    delivered before the dispatch, the run ends with as many items as
    paths and none of them [Pending] or [Processing]. *)
Theorem covered_run_ends_terminal
    (paths : list string) (early evs : list BatchProgressEvent) (st : App) :
  (∀ k, k < length paths → Z.of_nat k ∈ index <$> evs) →
  ∃ final, last (run generateId paths early evs st) = Some final ∧
    length (batchItems final) = length paths ∧
    Forall (λ item, terminal (status item)) (batchItems final).
Proof.
  intros Hcover. eexists. split; [apply last_run|].
  pose proof (length_dispatched paths early st) as Hlen.
  split; [by rewrite length_foldl_emit|].
  apply Forall_lookup_2. intros k item Hk.
  eapply foldl_emit_terminal; [apply listeners_dispatched| |exact Hk].
  right. apply Hcover. apply lookup_lt_Some in Hk.
  by rewrite length_foldl_emit, Hlen in Hk.
Qed.

Lemma batchItems_processBatch_catch e s :
  batchItems (processBatch_catch e s) = batchItems s.
Proof. reflexivity. Qed.

Lemma foldl_emit_frame evs : ∀ s,
  mode (foldl (λ s ev, emit ev s) s evs) = mode s ∧
  shown (foldl (λ s ev, emit ev s) s evs) = shown s.
Proof.
  induction evs as [|ev evs IH]; intros s; [done|].
  cbn [foldl]. destruct (IH (emit ev s)) as [-> ->].
  rewrite emit_eq. by destruct (listeners s).
Qed.

Lemma foldl_emit_untouched evs : ∀ s k,
  (∀ item, batchItems s !! k = Some item → status item = Processing) →
  Z.of_nat k ∉ index <$> evs →
  ∀ item, batchItems (foldl (λ s ev, emit ev s) s evs) !! k = Some item →
          status item = Processing.
Proof.
  induction evs as [|ev evs IH]; intros s k Hs Hk; [done|].
  rewrite fmap_cons in Hk. apply not_elem_of_cons in Hk as [Hne Hk].
  cbn [foldl]. apply IH; [|done].
  intros item. destruct (batchItems_emit ev s) as [-> | ->]; [apply Hs|].
  rewrite lookup_applyProgress.
  destruct (batchItems s !! k) as [item0|] eqn:Hi; [|done]. simpl.
  rewrite decide_False by done. intros [= <-]. by apply Hs.
Qed.

(** X9. When the batch command itself is rejected, whatever events were
    applied while it was pending, the toast is set to one message and the
    item list is left exactly as it was: the rejection marks no item.
    The mode stays batch, there is still one item per path, and an item
    that no event has addressed is still [Processing]. *)
Theorem rejected_batch_marks_no_item
    (paths : list string) (evs : list BatchProgressEvent) (e : Thrown) (st : App) :
  let running := foldl (λ s ev, emit ev s) (processBatch generateId paths st) evs in
  batchItems (processBatch_catch e running) = batchItems running ∧
  globalError (processBatch_catch e running) = Some ("Erreur batch : " +:+ toMsg e) ∧
  shown (processBatch_catch e running) = shown st ++ ["Erreur batch : " +:+ toMsg e] ∧
  mode (processBatch_catch e running) = Batch ∧
  length (batchItems (processBatch_catch e running)) = length paths ∧
  (∀ k item, batchItems (processBatch_catch e running) !! k = Some item →
     Z.of_nat k ∉ index <$> evs → status item = Processing).
Proof.
  intros running. subst running.
  rewrite batchItems_processBatch_catch.
  destruct (foldl_emit_frame evs (processBatch generateId paths st)) as [Hm Hs].
  split_and!.
  - done.
  - reflexivity.
  - unfold processBatch_catch, showError. cbn [shown set_shown set_globalError].
    by rewrite Hs.
  - unfold processBatch_catch, showError. cbn [mode set_shown set_globalError].
    by rewrite Hm.
  - rewrite length_foldl_emit, batchItems_dispatched, batchItems_created.
    by rewrite length_fmap, length_imap.
  - intros k item Hk Hout. eapply foldl_emit_untouched; [|exact Hout|exact Hk].
    intros item0. rewrite batchItems_dispatched.
    by intros (item1 & -> & _)%list_lookup_fmap_Some.
Qed.

End Events.

(** ** The batch list's counters and the sink *)

Section Sink.

Lemma filter_all_length {A} (P : A → Prop) `{∀ x, Decision (P x)} (l : list A) :
  length (filter P l) = length l ↔ Forall P l.
Proof.
  induction l as [|x l IH]; [by split; [constructor|]|].
  rewrite filter_cons. destruct (decide (P x)) as [HP|HP]; simpl.
  - rewrite Forall_cons. split.
    + intros [= Hlen]. split; [done|by apply IH].
    + intros [_ Hall]. f_equal. by apply IH.
  - split.
    + intros Hlen. pose proof (length_filter P l). lia.
    + intros [? _]%Forall_cons. done.
Qed.

(** X10. The count of finished items shown above the list never exceeds
    the total, and the save-all button is rendered exactly when the list
    is not empty and every item is [Done]: one item in any other status,
    [Error] included, keeps it away. *)
Theorem allDone_iff_every_item_done (items : list ImageItem) :
  BatchList.done items ≤ BatchList.total items ∧
  (BatchList.allDone items = true ↔
     items ≠ [] ∧ Forall (λ i, status i = Done) items) ∧
  (∀ item, item ∈ items → status item ≠ Done →
     BatchList.allDone items = false).
Proof.
  unfold BatchList.allDone, BatchList.done, BatchList.total.
  assert (bool_decide (0 < length items) = true ↔ items ≠ []) as Hpos.
  { rewrite bool_decide_eq_true. destruct items; simpl; split; try done; lia. }
  split_and!.
  - apply length_filter.
  - rewrite andb_true_iff, Hpos, bool_decide_eq_true, filter_all_length. tauto.
  - intros item Hin Hnot. apply andb_false_iff. left.
    apply bool_decide_eq_false. rewrite filter_all_length.
    intros Hall. apply Hnot. by eapply Forall_forall in Hall.
Qed.

Lemma length_doneItems (items : list ImageItem) :
  length (doneItems items) ≤ BatchList.done items.
Proof.
  unfold doneItems, BatchList.done.
  induction items as [|x l IH]; [done|].
  rewrite !filter_cons.
  destruct (decide (status x = Done ∧ _)) as [[HP _]|_];
    destruct (decide (status x = Done)); simpl; try done; lia.
Qed.

Lemma elem_of_doneItems (items : list ImageItem) item :
  item ∈ doneItems items ↔
  item ∈ items ∧ status item = Done ∧
  ∃ u, resultDataUrl item = Some u ∧ u ≠ "".
Proof.
  unfold doneItems. rewrite list_elem_of_filter, truthy_spec. tauto.
Qed.

Lemma doneItems_pairs (items : list ImageItem) :
  (λ i, (name i, default "" (resultDataUrl i))) <$> doneItems items =
  omap (λ item, match resultDataUrl item with
                | Some u => if decide (status item = Done ∧ u ≠ "")
                            then Some (name item, u) else None
                | None => None
                end) items.
Proof.
  unfold doneItems. induction items as [|x l IH]; [done|].
  rewrite filter_cons. cbn [omap list_omap]. rewrite <-IH. clear IH.
  destruct (resultDataUrl x) as [[|c u]|] eqn:Hu; simpl.
  - rewrite decide_False by (by intros [_ ?]).
    by rewrite decide_False by (by intros [_ ?]).
  - destruct (decide (status x = Done)) as [Hd|Hd].
    + rewrite !decide_True by done. by rewrite fmap_cons, Hu.
    + rewrite !decide_False; [done|by intros [? _]|by intros [? _]].
  - by rewrite decide_False by (by intros [_ ?]).
Qed.

(** X11. Saving all hands the sink nothing when no item is [Done] with a
    non-empty payload or when the folder dialog gives no folder.
    Otherwise it hands over, for the chosen folder, the list obtained
    from the batch list by keeping, in order, each item that is [Done]
    with a non-empty payload and replacing it by the pair of its name and
    payload: one pair per such item, in list order, never more pairs
    than the count of finished items. *)
Theorem handleSaveAll_sends_done_items (folder : option string) (st : App) :
  (handleSaveAll folder st = None ↔
     doneItems (batchItems st) = [] ∨ Js.truthy folder = false) ∧
  (∀ c, handleSaveAll folder st = Some c →
     ∃ items f, c = save_batch_to_folder items f ∧ folder = Some f ∧
       items =
         omap (λ item, match resultDataUrl item with
                       | Some u => if decide (status item = Done ∧ u ≠ "")
                                   then Some (name item, u) else None
                       | None => None
                       end) (batchItems st) ∧
       (∀ n u, (n, u) ∈ items ↔
          ∃ item, item ∈ batchItems st ∧ status item = Done ∧
                  name item = n ∧ resultDataUrl item = Some u ∧ u ≠ "") ∧
       length items ≤ BatchList.done (batchItems st)).
Proof.
  unfold handleSaveAll. pose proof (length_doneItems (batchItems st)) as Hlen.
  pose proof (elem_of_doneItems (batchItems st)) as Hin.
  pose proof (doneItems_pairs (batchItems st)) as Hpairs.
  destruct (doneItems (batchItems st)) as [|d ds] eqn:Hdone.
  { split; [by split; auto|done]. }
  destruct folder as [f|]; cbn [Js.truthy]; [|by split; [split; auto|]].
  destruct (Js.truthy_string f) eqn:Hf; [|by split; [split; auto|]].
  split.
  { split; [done|]. by intros [|]. }
  intros c [= <-].
  exists ((λ i, (name i, default "" (resultDataUrl i))) <$> (d :: ds)), f.
  split_and!; [done..| |].
  - intros n u. rewrite list_elem_of_fmap. split.
    + intros (item & [= -> ->] & Hitem). apply Hin in Hitem as (? & ? & u & Hu & ?).
      exists item. rewrite Hu. by split_and!.
    + intros (item & Hitem & Hst & <- & Hu & Hne). exists item.
      rewrite Hu. split; [done|]. apply Hin. split_and!; [done..|]. by exists u.
  - by rewrite length_fmap.
Qed.

(** X12. Through the preview's buttons, copying and saving act
    together, exactly when the component is in single mode with an entry
    that is not processing and holds a non-empty result, and what is
    copied is that result. Right after any processing has been started
    (path-based, clipboard capture or clipboard reprocess) neither button
    does anything. *)
Theorem copy_and_save_buttons_need_a_settled_result (st : App) :
  (is_Some (clickCopy st) ↔
     mode st = Single ∧
     ∃ s, single st = Some s ∧ isProcessing s = false ∧
          single_resultDataUrl s ≠ "") ∧
  (is_Some (clickCopy st) ↔ is_Some (clickSave st)) ∧
  (∀ c, clickCopy st = Some c →
     ∃ s, single st = Some s ∧
          c = copy_result_to_clipboard (single_resultDataUrl s)) ∧
  (∀ path preview,
     clickCopy (processSinglePath_call path preview st) = None ∧
     clickSave (processSinglePath_call path preview st) = None) ∧
  (clickCopy (processClipboard_call st) = None ∧
   clickSave (processClipboard_call st) = None) ∧
  (clickCopy (reprocessClipboard_call st) = None ∧
   clickSave (reprocessClipboard_call st) = None).
Proof.
  split_and!.
  - unfold clickCopy, buttons_enabled, handleCopy.
    destruct (mode st); try (by split; [intros [??]|intros [? _]]).
    destruct (single st) as [s|]; [|by split; [intros [??]|intros (_ & ? & ? & _)]].
    destruct (isProcessing s) eqn:Hp; simpl.
    { split; [by intros [??]|]. intros (_ & s' & [= <-] & Hp' & _). congruence. }
    destruct (single_resultDataUrl s) eqn:Hr; simpl.
    + split; [by intros [??]|]. intros (_ & s' & [= <-] & _ & Hne). congruence.
    + split; [|by eexists]. intros _. split; [done|].
      exists s. by rewrite Hr.
  - unfold clickCopy, clickSave, handleCopy, handleSaveSingle.
    destruct (buttons_enabled st); [|done].
    destruct (single st) as [s|]; [|done].
    destruct (Js.truthy_string _); split; intros [? ?]; done.
  - intros c. unfold clickCopy, handleCopy.
    destruct (buttons_enabled st); [|done].
    destruct (single st) as [s|]; [|done].
    destruct (Js.truthy_string _); [|done]. intros [= <-]. by exists s.
  - done.
  - done.
  - done.
  - unfold clickCopy, buttons_enabled.
    cbn [mode single reprocessClipboard_call invoke set_invoked set_single].
    destruct (mode st); try done. by destruct (single st).
  - unfold clickSave, buttons_enabled.
    cbn [mode single reprocessClipboard_call invoke set_invoked set_single].
    destruct (mode st); try done. by destruct (single st).
Qed.

(** ** Results that arrive late *)

(** X13. The success continuation of a path-based process writes into
    whatever entry is current: when a first image is submitted, the view
    is reset and a second image is submitted, the first one's result, if
    it arrives then, is shown as the result of the second. *)
Theorem late_single_result_lands_in_current_entry
    (st : App) (pA dA pB dB rA : string) :
  let st1 := processSinglePath_call pB dB
               (handleReset (processSinglePath_call pA dA st)) in
  single (processSinglePath_then rA st1) =
    Some {| single_sourceDataUrl := dB; single_sourcePath := pB;
            single_resultDataUrl := rA; isProcessing := false |} ∧
  invoked st1 =
    invoked st ++ [process_single_image pA (getOptions st)]
               ++ [process_single_image pB (getOptions st)].
Proof. cbv zeta. split; [reflexivity|]. simpl. by rewrite <-app_assoc. Qed.

(** X14. After a reset with nothing submitted since, a late result or
    failure of a path-based process or of a clipboard reprocess writes no
    result (the failure still shows its message); the late result of a
    clipboard capture does: it recreates the entry and the remembered
    source, while the mode stays idle and the drop zone stays on screen. *)
Theorem results_after_reset (st : App) (r : string) (e : Thrown) :
  processSinglePath_then r (handleReset st) = handleReset st ∧
  reprocessClipboard_then r (handleReset st) = handleReset st ∧
  single (processSinglePath_catch e (handleReset st)) = None ∧
  single (reprocessClipboard_catch e (handleReset st)) = None ∧
  mode (processClipboard_then r (handleReset st)) = Idle ∧
  single (processClipboard_then r (handleReset st)) =
    Some {| single_sourceDataUrl := r; single_sourcePath := "";
            single_resultDataUrl := r; isProcessing := false |} ∧
  singleSourceRef (processClipboard_then r (handleReset st)) = Some ("", r) ∧
  view None (processClipboard_then r (handleReset st)) = ShowDropZone false.
Proof. split_and!; reflexivity. Qed.

End Sink.

(** ** The background picker *)

Section PickerFacts.

Import OutputOptions.

Variable hexToRgb : string → Z * Z * Z.

(** What the background effect leaves alone, whichever branch it takes. *)
Lemma backgroundEffect_frame s :
  bg (backgroundEffect s) = bg s ∧
  batchItems (backgroundEffect s) = batchItems s ∧
  listeners (backgroundEffect s) = listeners s ∧
  batchUnlistenRef (backgroundEffect s) = batchUnlistenRef s.
Proof.
  unfold backgroundEffect. destruct (bgInitRef s); [done|].
  destruct (singleSourceRef s) as [[p d]|]; [|done].
  destruct (decide (mode s = Single)); [|done].
  by destruct (decide (p = "")).
Qed.

(** X15. The button that is highlighted is the one last clicked: reading
    the preset back from the value a click produces gives the preset
    clicked, also once the component has stored the value and run
    whatever reprocessing the change triggers; and a colour from the
    picker always reads back as the custom preset, pure white and pure
    black included. *)
Theorem clicked_preset_is_highlighted
    (preset : Preset) (customHex : string) (st : App) :
  currentPreset (selectPreset hexToRgb preset customHex) = preset ∧
  currentPreset (bg (setBackground (selectPreset hexToRgb preset customHex) st))
    = preset ∧
  currentPreset (onCustomColorChange hexToRgb customHex).2 = PresetCustom.
Proof.
  assert (currentPreset (selectPreset hexToRgb preset customHex) = preset) as Hsel.
  { unfold selectPreset. destruct preset; try done.
    by destruct (hexToRgb customHex) as [[r g] b]. }
  split_and!.
  - done.
  - unfold setBackground.
    destruct (backgroundEffect_frame
                (set_bg (selectPreset hexToRgb preset customHex) st)) as [-> _].
    done.
  - unfold onCustomColorChange. cbn [snd].
    by destruct (hexToRgb customHex) as [[r g] b].
Qed.

End PickerFacts.

(** ** What holds after every history *)

Section HistoryFacts.

Variable generateId : nat → string.
Variable convertFileSrc : string → string.

Lemma foldl_act_invariant (P : App → Prop) :
  (∀ a s, P s → P (act generateId convertFileSrc a s)) →
  ∀ actions s, P s →
    P (foldl (λ st a, act generateId convertFileSrc a st) s actions).
Proof.
  intros Hstep actions. induction actions as [|a actions IH]; intros s Hs; [done|].
  cbn [foldl]. by apply IH, Hstep.
Qed.

Lemma emit_frame ev s : mode (emit ev s) = mode s ∧ single (emit ev s) = single s.
Proof. rewrite emit_eq. by destruct (listeners s). Qed.

Lemma backgroundEffect_keeps_entry s :
  (mode s = Single → is_Some (single s)) →
  mode (backgroundEffect s) = Single → is_Some (single (backgroundEffect s)).
Proof.
  unfold backgroundEffect. destruct (bgInitRef s); [done|].
  destruct (singleSourceRef s) as [[p d]|]; [|done].
  destruct (decide (mode s = Single)) as [Hm|]; [|done].
  destruct (decide (p = "")); [|by eexists].
  intros Hinv _. destruct (Hinv Hm) as [x Hx].
  cbn [single reprocessClipboard_call invoke set_invoked set_single].
  rewrite Hx. by eexists.
Qed.

Lemma act_keeps_entry a s :
  (mode s = Single → is_Some (single s)) →
  mode (act generateId convertFileSrc a s) = Single →
  is_Some (single (act generateId convertFileSrc a s)).
Proof.
  intros Hinv. destruct a; cbn [act].
  - destruct paths as [|p [|q l]]; [done|by eexists|done].
  - intros Hm. destruct (Hinv Hm) as [x Hx].
    cbn [single processSinglePath_then set_single]. rewrite Hx. by eexists.
  - intros Hm. destruct (Hinv Hm) as [x Hx].
    cbn [single processSinglePath_catch showError set_single set_shown
         set_globalError]. rewrite Hx. by eexists.
  - by eexists.
  - by eexists.
  - done.
  - unfold setBackground. apply backgroundEffect_keeps_entry. exact Hinv.
  - intros Hm. destruct (Hinv Hm) as [x Hx].
    cbn [single reprocessClipboard_then set_single]. rewrite Hx. by eexists.
  - intros Hm. destruct (Hinv Hm) as [x Hx].
    cbn [single reprocessClipboard_catch showError set_single set_shown
         set_globalError]. rewrite Hx. by eexists.
  - done.
  - exact Hinv.
  - exact Hinv.
  - destruct (emit_frame ev s) as [-> ->]. exact Hinv.
  - done.
  - exact Hinv.
Qed.

(** X16. Whatever has happened since the component was mounted, in
    whatever order calls were made and promises settled, single mode
    always has an entry to show: the main area is never left blank. *)
Theorem main_area_never_blank (modelError : option string) (actions : list Action) :
  (mode (after generateId convertFileSrc actions) = Single →
   is_Some (single (after generateId convertFileSrc actions))) ∧
  view modelError (after generateId convertFileSrc actions) ≠ ShowNothing.
Proof.
  assert (mode (after generateId convertFileSrc actions) = Single →
          is_Some (single (after generateId convertFileSrc actions))) as Hinv.
  { unfold after.
    apply (foldl_act_invariant (λ s, mode s = Single → is_Some (single s)));
      [apply act_keeps_entry|done]. }
  split; [done|]. unfold view.
  destruct (mode (after generateId convertFileSrc actions)); [done| |done].
  by destruct (Hinv eq_refl) as [x ->].
Qed.

(** *** The batch list *)

Lemma act_batchItems a s :
  batchItems (act generateId convertFileSrc a s) = batchItems s ∨
  batchItems (act generateId convertFileSrc a s) = [] ∨
  (∃ paths, batchItems (act generateId convertFileSrc a s) =
            imap (λ i p, newItem (generateId (idsDrawn s + i)) p) paths) ∨
  (∃ paths, batchItems (act generateId convertFileSrc a s) =
            with_status Processing <$>
            imap (λ i p, newItem (generateId (idsDrawn s + i)) p) paths) ∨
  batchItems (act generateId convertFileSrc a s) =
    with_status Processing <$> batchItems s ∨
  (∃ ev, batchItems (act generateId convertFileSrc a s) =
         applyProgress ev (batchItems s)).
Proof.
  destruct a; cbn [act]; try (by left).
  - destruct paths as [|p [|q l]]; [|by left|].
    + right; right; right; left. by exists [].
    + right; right; right; left. by exists (p :: q :: l).
  - left. unfold setBackground.
    by destruct (backgroundEffect_frame (set_bg b s)) as (_ & -> & _).
  - right; right; left. by exists paths.
  - by right; right; right; right; left.
  - destruct (batchItems_emit ev s) as [-> | ->]; [by left|].
    right; right; right; right; right. by exists ev.
  - by right; left.
Qed.

Lemma newItem_from_path ident p : from_path (newItem ident p).
Proof. by exists p. Qed.

Lemma with_status_from_path s item : from_path item → from_path (with_status s item).
Proof. intros (p & ? & ? & ?). by exists p. Qed.

Lemma completed_from_path ev item : from_path item → from_path (completed ev item).
Proof. intros (p & ? & ? & ?). by exists p. Qed.

Lemma created_from_path (n : nat) (paths : list string) :
  Forall from_path (imap (λ i p, newItem (generateId (n + i)) p) paths).
Proof.
  apply Forall_lookup_2. intros i item [p [_ ->]]%list_lookup_imap_Some.
  apply newItem_from_path.
Qed.

Lemma applyProgress_from_path ev (l : list ImageItem) :
  Forall from_path l → Forall from_path (applyProgress ev l).
Proof.
  intros Hl. apply Forall_lookup_2. intros i item.
  rewrite lookup_applyProgress.
  destruct (l !! i) as [item0|] eqn:Hi; [|done]. simpl. intros [= <-].
  eapply Forall_lookup_1 in Hl; [|exact Hi].
  destruct (decide _); [by apply completed_from_path|done].
Qed.

(** X17. Whatever has happened since the component was mounted, every
    item of the batch list has a source path, is named by the final
    segment of that path, and has no source data URL: no event, whatever
    it carries, changes an item's path or name. *)
Theorem batch_items_always_from_paths (actions : list Action) :
  Forall from_path (batchItems (after generateId convertFileSrc actions)).
Proof.
  unfold after.
  apply (foldl_act_invariant (λ s, Forall from_path (batchItems s))); [|constructor].
  intros a s Hs.
  destruct (act_batchItems a s)
    as [-> | [-> | [[paths ->] | [[paths ->] | [-> | [ev ->]]]]]].
  - done.
  - constructor.
  - apply created_from_path.
  - apply Forall_fmap. eapply Forall_impl; [apply created_from_path|].
    intros item. apply with_status_from_path.
  - apply Forall_fmap. eapply Forall_impl; [exact Hs|].
    intros item. apply with_status_from_path.
  - by apply applyProgress_from_path.
Qed.

Lemma id_applyProgress ev (l : list ImageItem) :
  id <$> applyProgress ev l = id <$> l.
Proof.
  apply list_eq. intros i. rewrite !list_lookup_fmap, lookup_applyProgress.
  destruct (l !! i); [|done]. simpl. by destruct (decide _).
Qed.

Lemma id_with_status s (l : list ImageItem) :
  id <$> (with_status s <$> l) = id <$> l.
Proof. rewrite <-list_fmap_compose. by apply list_fmap_ext. Qed.

Lemma id_created_NoDup (n : nat) (paths : list string) :
  Inj (=) (=) generateId →
  NoDup (id <$> imap (λ i p, newItem (generateId (n + i)) p) paths).
Proof.
  intros Hinj. apply NoDup_alt. intros i j x.
  rewrite !list_lookup_fmap, !list_lookup_imap.
  destruct (paths !! i); [|done]. destruct (paths !! j); [|done]. simpl.
  intros [= <-] [= Heq]. apply Hinj in Heq. lia.
Qed.

(** X18. With a token generator that never repeats itself, the items of
    the batch list have pairwise different ids after every history: the
    keys under which the list is rendered are never shared. *)
Theorem batch_item_ids_always_distinct (actions : list Action) :
  Inj (=) (=) generateId →
  NoDup (id <$> batchItems (after generateId convertFileSrc actions)).
Proof.
  intros Hinj. unfold after.
  apply (foldl_act_invariant (λ s, NoDup (id <$> batchItems s))); [|constructor].
  intros a s Hs.
  destruct (act_batchItems a s)
    as [-> | [-> | [[paths ->] | [[paths ->] | [-> | [ev ->]]]]]].
  - done.
  - constructor.
  - by apply id_created_NoDup.
  - rewrite id_with_status. by apply id_created_NoDup.
  - by rewrite id_with_status.
  - by rewrite id_applyProgress.
Qed.

(** *** Subscriptions *)

Lemma act_subscription a s :
  unsplit a = true →
  (listeners (act generateId convertFileSrc a s) = listeners s ∧
   batchUnlistenRef (act generateId convertFileSrc a s) = batchUnlistenRef s) ∨
  (listeners (act generateId convertFileSrc a s) =
     listeners (unlisten_current s) ++ [nextListener s] ∧
   batchUnlistenRef (act generateId convertFileSrc a s) = Some (nextListener s)) ∨
  (listeners (act generateId convertFileSrc a s) = listeners (unlisten_current s) ∧
   batchUnlistenRef (act generateId convertFileSrc a s) = batchUnlistenRef s).
Proof.
  destruct a; cbn [act unsplit]; intros Hu; try discriminate; try (by left).
  - destruct paths as [|p [|q l]]; [|by left|]; right; left; done.
  - left. unfold setBackground.
    by destruct (backgroundEffect_frame (set_bg b s)) as (_ & _ & -> & ->).
  - left. split; [apply listeners_emit|].
    rewrite emit_eq. by destruct (listeners s).
  - by right; right.
Qed.

Lemma unlisten_current_clears s :
  (listeners s = [] ∨ ∃ h, batchUnlistenRef s = Some h ∧ listeners s = [h]) →
  listeners (unlisten_current s) = [].
Proof.
  unfold unlisten_current, unlisten. cbn [listeners set_listeners].
  intros [Hnil | (h & -> & ->)].
  - rewrite Hnil. by destruct (batchUnlistenRef s).
  - cbn. by rewrite decide_False by (by intros ?).
Qed.

Lemma foldl_one_subscription actions : ∀ s,
  (listeners s = [] ∨ ∃ h, batchUnlistenRef s = Some h ∧ listeners s = [h]) →
  Forall (λ a, unsplit a = true) actions →
  listeners (foldl (λ st a, act generateId convertFileSrc a st) s actions) = [] ∨
  ∃ h, batchUnlistenRef
         (foldl (λ st a, act generateId convertFileSrc a st) s actions) = Some h ∧
       listeners (foldl (λ st a, act generateId convertFileSrc a st) s actions) = [h].
Proof.
  induction actions as [|a actions IH]; intros s Hs Hall; [done|].
  apply Forall_cons in Hall as [Ha Hall]. cbn [foldl]. apply IH; [|done].
  pose proof (unlisten_current_clears s Hs) as Hclear.
  destruct (act_subscription a s Ha) as [[-> ->] | [[-> ->] | [-> ->]]].
  - done.
  - right. exists (nextListener s). by rewrite Hclear.
  - by left.
Qed.




(** X19. As long as no batch submission is interrupted between its
    subscription and its dispatch, at most one progress subscription is
    alive after every history, and it is the one whose handle the
    component holds and can cancel. *)
Theorem at_most_one_subscription (actions : list Action) :
  Forall (λ a, unsplit a = true) actions →
  listeners (after generateId convertFileSrc actions) = [] ∨
  ∃ h, batchUnlistenRef (after generateId convertFileSrc actions) = Some h ∧
       listeners (after generateId convertFileSrc actions) = [h].
Proof.
  intros Hall. unfold after. apply foldl_one_subscription; [by left|done].
Qed.

End HistoryFacts.

(** ** Concrete runs of the further properties *)

Section MoreConcrete.

Import Samples DropZone.

Example image_without_dot : isImagePath "png" = true.
Proof. reflexivity. Qed.

Example image_mixed_case : isImagePath "/home/me/dog.final.JpG" = true.
Proof. reflexivity. Qed.

Example dot_in_folder_only : isImagePath "C:\my.png\notes" = false.
Proof. reflexivity. Qed.

Example archive_is_skipped : isImagePath "shots.tar.gz" = false.
Proof. reflexivity. Qed.

(** One image among three dropped files is processed as a single image. *)
Example drop_mixed_files :
  invoked (onDrop sample_id sample_src false
             (Some ["notes.txt"; "/home/me/dog.final.jpg"; "shots.tar.gz"]) mount) =
  [process_single_image "/home/me/dog.final.jpg" {| background := Transparent |}].
Proof. vm_compute. reflexivity. Qed.

(** Two submissions interleaved between subscription and dispatch leave
    two subscriptions alive, of which the component holds one handle. *)
Example interleaved_submissions_keep_two_subscriptions :
  let st := after sample_id sample_src
              [DoBatchCall two_paths; DoBatchCall two_paths;
               DoBatchListened 0 two_paths {| background := Transparent |};
               DoBatchListened 1 two_paths {| background := Transparent |}] in
  listeners st = [0; 1] ∧ batchUnlistenRef st = Some 1.
Proof. split; vm_compute; reflexivity. Qed.

Lemma isImagePath_by_last_extension_witness :
  Js.no_dot "PNG" = true ∧
  (isImagePath ("C:\pics\cat" +:+ String "." "PNG") =
     bool_decide (toLowerCase "PNG" ∈ ACCEPTED_EXTENSIONS) ∧
   isImagePath "PNG" = bool_decide (toLowerCase "PNG" ∈ ACCEPTED_EXTENSIONS)).
Proof.
  split; [reflexivity|].
  exact (isImagePath_by_last_extension "C:\pics\cat" "PNG" eq_refl).
Defined.

Lemma isImagePath_ignores_case_witness :
  toLowerCase "Photo.JPG" = toLowerCase "photo.jpg" ∧
  isImagePath "Photo.JPG" = isImagePath "photo.jpg".
Proof.
  split; [reflexivity|].
  exact (isImagePath_ignores_case "Photo.JPG" "photo.jpg" eq_refl).
Defined.

Lemma accepted_file_saved_under_its_stem_witness :
  Js.no_dot "JPG" = true ∧
  isImagePath ("/home/me/dog.final" +:+ String "." "JPG") = true ∧
  Js.truthy (result_data_url (succeeded 0 "data:d")) = true ∧
  handleSaveOne
    (completed (succeeded 0 "data:d")
       (with_status Processing
          (newItem "#" ("/home/me/dog.final" +:+ String "." "JPG"))))
  = Some (basename "/home/me/dog.final" +:+ "_nobg.png").
Proof.
  split; [reflexivity|]. split; [reflexivity|]. split; [reflexivity|].
  exact (accepted_file_saved_under_its_stem "#" "/home/me/dog.final" "JPG"
           (succeeded 0 "data:d") eq_refl eq_refl eq_refl).
Defined.

Lemma out_of_range_event_ignored_witness :
  (index (succeeded 7 "data:d") < 0 ∨
   Z.of_nat (length (batchItems (processBatch sample_id two_paths mount)))
     ≤ index (succeeded 7 "data:d"))%Z ∧
  (applyProgress (succeeded 7 "data:d")
     (batchItems (processBatch sample_id two_paths mount)) =
     batchItems (processBatch sample_id two_paths mount) ∧
   emit (succeeded 7 "data:d") (processBatch sample_id two_paths mount) =
     processBatch sample_id two_paths mount).
Proof.
  assert (index (succeeded 7 "data:d") < 0 ∨
          Z.of_nat (length (batchItems (processBatch sample_id two_paths mount)))
            ≤ index (succeeded 7 "data:d"))%Z as Hout.
  { right. vm_compute. intros Hgt. discriminate Hgt. }
  split; [exact Hout|].
  exact (out_of_range_event_ignored (succeeded 7 "data:d")
           (processBatch sample_id two_paths mount) Hout).
Defined.

Lemma later_event_overwrites_earlier_witness :
  index (succeeded 0 "data:d") = index (failed 0 "late") ∧
  applyProgress (failed 0 "late")
    (applyProgress (succeeded 0 "data:d")
       (batchItems (processBatch sample_id two_paths mount))) =
  applyProgress (failed 0 "late")
    (batchItems (processBatch sample_id two_paths mount)).
Proof.
  split; [reflexivity|].
  exact (later_event_overwrites_earlier (succeeded 0 "data:d") (failed 0 "late")
           _ eq_refl).
Defined.

Lemma covered_run_ends_terminal_witness :
  (∀ k, k < length two_paths →
        Z.of_nat k ∈ index <$> [succeeded 1 "a"; failed 0 "b"; succeeded 1 "c"]) ∧
  ∃ final,
    last (run sample_id two_paths [succeeded 0 "e"]
            [succeeded 1 "a"; failed 0 "b"; succeeded 1 "c"] mount) = Some final ∧
    length (batchItems final) = length two_paths ∧
    Forall (λ item, terminal (status item)) (batchItems final).
Proof.
  assert (∀ k, k < length two_paths →
            Z.of_nat k ∈ index <$> [succeeded 1 "a"; failed 0 "b"; succeeded 1 "c"])
    as Hcover.
  { intros k Hk. apply list_elem_of_In.
    destruct k as [|[|k]]; simpl in *; [tauto|tauto|lia]. }
  split; [exact Hcover|].
  exact (covered_run_ends_terminal sample_id two_paths [succeeded 0 "e"] _ mount
           Hcover).
Defined.

Lemma sample_id_inj : Inj (=) (=) sample_id.
Proof.
  intros n. induction n as [|n IH]; intros [|m]; simpl; try done.
  intros [= H]. f_equal. by apply IH.
Qed.

Lemma batch_item_ids_always_distinct_witness :
  Inj (=) (=) sample_id ∧
  NoDup (id <$> batchItems
           (after sample_id sample_src
              [DoPaths two_paths; DoProgress (succeeded 1 "data:d")])).
Proof.
  split; [exact sample_id_inj|].
  exact (batch_item_ids_always_distinct sample_id sample_src _ sample_id_inj).
Defined.

Lemma at_most_one_subscription_witness :
  Forall (λ a, unsplit a = true) [DoPaths two_paths; DoReset; DoPaths two_paths] ∧
  (listeners (after sample_id sample_src
                [DoPaths two_paths; DoReset; DoPaths two_paths]) = [] ∨
   ∃ h, batchUnlistenRef (after sample_id sample_src
                            [DoPaths two_paths; DoReset; DoPaths two_paths])
          = Some h ∧
        listeners (after sample_id sample_src
                     [DoPaths two_paths; DoReset; DoPaths two_paths]) = [h]).
Proof.
  assert (Forall (λ a, unsplit a = true)
            [DoPaths two_paths; DoReset; DoPaths two_paths]) as Hall.
  { repeat (apply Forall_cons; split; [reflexivity|]). constructor. }
  split; [exact Hall|].
  exact (at_most_one_subscription sample_id sample_src _ Hall).
Defined.

End MoreConcrete.
